(** * pkg/stats: set counters, increment counters and gauges over an
      OpenTelemetry meter

    A shallow embedding of [pkg/stats/stats.go].  Go's [int64] and [uint64]
    are [Z] with the wrap-around written out, [map[string]string] is the list
    of its entries in the order the runtime enumerates them, the instrument's
    [counterMap] is a [gmap], and the backend [metric.Int64Counter] is the
    list of the [Add] calls it has received. *)

From Stdlib Require Import ZArith Lia.
From stdpp Require Import base list strings gmap.

Open Scope Z_scope.

(** ** Machine integers *)

Module Int64.

Definition modulus : Z := 2 ^ 64.
Definition min_signed : Z := - 2 ^ 63.
Definition max_signed : Z := 2 ^ 63 - 1.

(** The values an [int64] variable can hold. *)
Definition in_range (z : Z) : Prop := min_signed <= z <= max_signed.

(** Two's complement wrap-around of an exact result. *)
Definition wrap (z : Z) : Z := (z + 2 ^ 63) mod modulus - 2 ^ 63.

Definition add (a b : Z) : Z := wrap (a + b).
Definition sub (a b : Z) : Z := wrap (a - b).

End Int64.

Module Uint64.

Definition modulus : Z := 2 ^ 64.
Definition in_range (z : Z) : Prop := 0 <= z < modulus.
Definition wrap (z : Z) : Z := z mod modulus.

End Uint64.

(** ** Labels *)

(** [map[string]string]: the entries of the map, in the order in which a
    [range] loop or [reflect.Value.MapKeys] enumerates them.  Go leaves that
    order unspecified, so two maps holding the same pairs are two lists that
    are permutations of each other. *)
Definition LabelSet : Type := list (string * string).

(** A Go map holds every key once. *)
Definition wf_labels (m : LabelSet) : Prop := NoDup m.*1.

(** Two maps hold identical key/value pairs. *)
Definition same_pairs (m1 m2 : LabelSet) : Prop :=
  ∀ k v, (k, v) ∈ m1 ↔ (k, v) ∈ m2.

Module attribute.

(** [attribute.KeyValue] with a string value. *)
Record KeyValue : Type := String { Key : string; Value : string }.

#[global] Instance KeyValue_eq_dec : EqDecision KeyValue.
Proof. solve_decision. Defined.

End attribute.

(** [transformLabels]: one [attribute.String(k, fmt.Sprint(v))] per entry, in
    iteration order; [fmt.Sprint] of a string is the string. *)
Definition transformLabels (decodedKey : LabelSet) : list attribute.KeyValue :=
  foldl (λ labels '(k, v), labels ++ [attribute.String k v]) [] decodedKey.

(** A [for ... range] loop over the entries of a collection whose body
    updates the loop state or returns an error from the enclosing function. *)
Fixpoint range_until_error {A S E : Type}
    (body : S → A → S + E) (s : S) (l : list A) : S + E :=
  match l with
  | [] => inl s
  | x :: l' =>
      match body s x with
      | inr err => inr err
      | inl s' => range_until_error body s' l'
      end
  end.

(** ** The label-set hash *)

Module fnv.

(** [hash/fnv], 64-bit FNV-1, the hasher [fnv.New64] that [hashstructure]
    takes when its options name none: the hasher is its 64-bit state, and
    every byte written multiplies the state by the prime and is then
    combined with it by exclusive or. *)
Definition offset64 : Z := 14695981039346656037.
Definition prime64 : Z := 1099511628211.

Definition New64 : Z := offset64.
Definition Reset (h : Z) : Z := offset64.

Definition Write (h : Z) (data : list Z) : Z :=
  foldl (λ hash c, Z.lxor (Uint64.wrap (hash * prime64)) c) h data.

Definition Sum64 (h : Z) : Z := h.

End fnv.

(** The bytes of a Go string. *)
Definition bytes_of_string (s : string) : list Z :=
  (λ a, Z.of_N (Ascii.N_of_ascii a)) <$> String.list_ascii_of_string s.

(** [binary.Write(h, binary.LittleEndian, x)] for a [uint64]: eight bytes,
    least significant first. *)
Definition le_uint64 (x : Z) : list Z :=
  (λ i, Z.land (Z.shiftr x (8 * i)) 255) <$> [0; 1; 2; 3; 4; 5; 6; 7].

Module hashstructure.

(** Modelled from the spec: [hashstructure.Hash] is the imported package
    github.com/mitchellh/hashstructure/v2, whose source is not part of the
    repository.  The spec (4.1) asks for a pure function from a label set to
    a fixed-width key that depends on the content of the mapping and not on
    its enumeration, and that fails only when the hashing primitive fails.
    The model follows the package's walk over a map of strings: every key
    and value is hashed with FNV-1, the two hashes of an entry are combined
    by an ordered update, the entries are combined by exclusive or, and
    format 2 finishes the result with one more hash. *)
Inductive error : Type :=
| ErrFormat.

(** Modelled from the spec: the pair [(uint64, error)] that [Hash] and the
    walker return, the hash when the error is nil. *)
Definition result : Type := Z + error.

(** Modelled from the spec: the formats of the package, [FormatV1] and
    [FormatV2] between the two bounds that [Hash] checks. *)
Definition formatInvalid : Z := 0.
Definition FormatV1 : Z := 1.
Definition FormatV2 : Z := 2.
Definition formatMax : Z := 3.

(** Modelled from the spec: the walker's case for [reflect.String], reset
    the hasher, write the bytes, return the sum with the write's error.
    FNV's [Write] has no failing path. *)
Definition visit_string (s : string) : result :=
  let h := fnv.Reset fnv.New64 in
  let h := fnv.Write h (bytes_of_string s) in
  inl (fnv.Sum64 h).

(** Modelled from the spec: [hashUpdateOrdered], a real hash of the pair. *)
Definition hashUpdateOrdered (a b : Z) : Z :=
  let h := fnv.Reset fnv.New64 in
  let h := fnv.Write h (le_uint64 a) in
  let h := fnv.Write h (le_uint64 b) in
  fnv.Sum64 h.

(** Modelled from the spec: [hashUpdateUnordered], exclusive or. *)
Definition hashUpdateUnordered (a b : Z) : Z := Z.lxor a b.

(** Modelled from the spec: [hashFinishUnordered], one more hash of the
    combined value. *)
Definition hashFinishUnordered (a : Z) : Z :=
  let h := fnv.Reset fnv.New64 in
  let h := fnv.Write h (le_uint64 a) in
  fnv.Sum64 h.

(** Modelled from the spec: the body of the walker's loop over a map, for
    the entry [(k, v)]: hash the key, hash the value, combine the two in
    order and fold the entry into the hash [h] accumulated so far. *)
Definition visit_entry (h : Z) (k v : string) : result :=
  match visit_string k with
  | inr err => inr err
  | inl kh =>
      match visit_string v with
      | inr err => inr err
      | inl vh =>
          let fieldHash := hashUpdateOrdered kh vh in
          inl (hashUpdateUnordered h fieldHash)
      end
  end.

(** Modelled from the spec: the walker's loop over the entries of a map;
    an error of a key or of a value leaves the loop. *)
Definition visit_entries (h : Z) (entries : LabelSet) : result :=
  range_until_error (λ h '(k, v), visit_entry h k v) h entries.

(** The hash of one entry and the exclusive or of the hashes of the
    entries: what the loop computes when no write fails. *)
Definition entry_hash (kv : string * string) : Z :=
  hashUpdateOrdered (fnv.Sum64 (fnv.Write (fnv.Reset fnv.New64) (bytes_of_string kv.1)))
                    (fnv.Sum64 (fnv.Write (fnv.Reset fnv.New64) (bytes_of_string kv.2))).

Definition xor_entries (m : LabelSet) : Z :=
  foldr (λ kv acc, Z.lxor (entry_hash kv) acc) 0 m.

(** Modelled from the spec: the walker's case for [reflect.Map]. *)
Definition visit_map (format : Z) (m : LabelSet) : result :=
  match visit_entries 0 m with
  | inr err => inr err
  | inl h =>
      if decide (format ≠ FormatV1) then inl (hashFinishUnordered h)
      else inl h
  end.

(** Modelled from the spec: [Hash(v, format, nil)] on a
    [map[string]string]; the format is validated first. *)
Definition Hash (m : LabelSet) (format : Z) : result :=
  if decide (format <= formatInvalid ∨ formatMax <= format) then inr ErrFormat
  else visit_map format m.

End hashstructure.

(** ** Results of a call *)

(** A call returns, ends the process through [log.Fatal], or panics. *)
Inductive outcome (A : Type) : Type :=
| Returned (a : A)
| Fatal (msg : string)
| Panic (msg : string).
Arguments Returned {A} a.
Arguments Fatal {A} msg.
Arguments Panic {A} msg.

(** ** The backend counter *)

Module metric.

(** [metric.Int64Counter], seen from the instrument: the [Add] calls it has
    received, oldest first, each with its increment and its attributes. *)
Definition Int64Counter : Type := list (Z * list attribute.KeyValue).

Definition Add (c : Int64Counter) (incr : Z) (labels : list attribute.KeyValue)
  : Int64Counter :=
  c ++ [(incr, labels)].

(** The increments the counter has received. *)
Definition deltas (c : Int64Counter) : list Z := c.*1.

(** The sum of the increments, accumulated in an [int64]. *)
Definition total (c : Int64Counter) : Z := foldl Int64.add 0 (deltas c).

(** The same sum without wrap-around. *)
Definition exact_total (c : Int64Counter) : Z := foldr Z.add 0 (deltas c).

End metric.

(** ** The set counter *)

(** [setCounter]: the backend counter and the last value set per label key. *)
Record setCounter : Type := {
  counter : metric.Int64Counter;
  counterMap : gmap Z Z
}.

(** [metricsProvider.NewSetCounter]. *)
Definition NewSetCounter : setCounter :=
  {| counter := []; counterMap := ∅ |}.

(** The baseline of a label key: the value last set, zero for a key never
    set. *)
Definition baseline (c : setCounter) (keyHash : Z) : Z :=
  default 0 (counterMap c !! keyHash).

Section SetCounter.

(** [hashstructure.Hash] on a label map, with its format argument. *)
Variable Hash : LabelSet → Z → hashstructure.result.

(** [setCounter.Set]. Reading an absent key of a Go map gives the zero
    value and does not create the key. *)
Definition setCounter_Set (c : setCounter) (intVal : Z) (decodedKey : LabelSet)
  : outcome setCounter :=
  let labels := transformLabels decodedKey in
  match Hash decodedKey hashstructure.FormatV2 with
  | inr err => Fatal "This should never happen"
  | inl keyHash =>
      let oldVal := default 0 (counterMap c !! keyHash) in
      let diff := Int64.sub intVal oldVal in
      if decide (oldVal = intVal) then Returned c
      else
        Returned {| counter := metric.Add (counter c) diff labels;
                    counterMap := <[keyHash := intVal]> (counterMap c) |}
  end.

(** A caller that makes the calls [Set(ctx, v, labels)] one after the
    other, for the pairs [(labels, v)] of [calls]. *)
Fixpoint setCounter_Set_calls (c : setCounter) (calls : list (LabelSet * Z))
  : outcome setCounter :=
  match calls with
  | [] => Returned c
  | (labels, v) :: rest =>
      match setCounter_Set c v labels with
      | Returned c' => setCounter_Set_calls c' rest
      | Fatal msg => Fatal msg
      | Panic msg => Panic msg
      end
  end.

End SetCounter.

(** ** The increment counter *)

Record incrementCounter : Type := { inc_counter : metric.Int64Counter }.

Definition NewIncrementCounter : incrementCounter := {| inc_counter := [] |}.

(** [incrementCounter.Increment]. *)
Definition incrementCounter_Increment (i : incrementCounter) (decodedKey : LabelSet)
  : incrementCounter :=
  let labels := transformLabels decodedKey in
  {| inc_counter := metric.Add (inc_counter i) 1 labels |}.

(** ** The gauge *)

Module sync.

(** [sync.RWMutex]: held by a writer, or by a number of readers. *)
Record RWMutex : Type := { writer : bool; readers : nat }.

Definition unlocked : RWMutex := {| writer := false; readers := 0 |}.

(** [Lock]: [None] while the caller has to wait. *)
Definition Lock (m : RWMutex) : option RWMutex :=
  if writer m then None
  else match readers m with
       | O => Some {| writer := true; readers := 0 |}
       | S _ => None
       end.

(** [Unlock]: [None] is the runtime's fatal error for a mutex that is not
    locked for writing. *)
Definition Unlock (m : RWMutex) : option RWMutex :=
  if writer m then Some {| writer := false; readers := readers m |} else None.

(** [RLock]: [None] while the caller has to wait.  The runtime also makes a
    reader wait behind a writer that is waiting; letting it in only adds
    interleavings. *)
Definition RLock (m : RWMutex) : option RWMutex :=
  if writer m then None
  else Some {| writer := false; readers := S (readers m) |}.

(** [RUnlock]: [None] is the runtime's fatal error for a mutex that no
    reader holds. *)
Definition RUnlock (m : RWMutex) : option RWMutex :=
  match readers m with
  | O => None
  | S n => Some {| writer := writer m; readers := n |}
  end.

End sync.

(** The three cells [NewGauge] allocates and shares between the [gauge] it
    returns and the observer callback it registers. *)
Record gauge : Type := {
  val : Z;
  labels : list attribute.KeyValue;
  lock : sync.RWMutex
}.

(** [metricsProvider.NewGauge]: [new(int64)], [new([]attribute.KeyValue)]
    and a fresh mutex. *)
Definition NewGauge : gauge :=
  {| val := 0; labels := []; lock := sync.unlocked |}.

Definition gauge_with_lock (g : gauge) (l : sync.RWMutex) : gauge :=
  {| val := val g; labels := labels g; lock := l |}.
Definition gauge_with_labels (g : gauge) (ls : list attribute.KeyValue) : gauge :=
  {| val := val g; labels := ls; lock := lock g |}.
Definition gauge_with_val (g : gauge) (v : Z) : gauge :=
  {| val := v; labels := labels g; lock := lock g |}.

(** [gauge.Set] run without interruption; [None] when [Lock] cannot be
    taken or [Unlock] faults. *)
Definition gauge_Set (g : gauge) (intVal : Z) (decodedKey : LabelSet) : option gauge :=
  let labels := transformLabels decodedKey in
  l ← sync.Lock (lock g);
  let g := gauge_with_lock g l in
  let g := gauge_with_labels g labels in
  let g := gauge_with_val g intVal in
  l ← sync.Unlock (lock g);
  Some (gauge_with_lock g l).

(** The observer callback registered by [NewGauge], run without
    interruption: the pair it passes to [ior.Observe], and the gauge. *)
Definition gauge_observer (g : gauge) : option (gauge * (Z * list attribute.KeyValue)) :=
  l ← sync.RLock (lock g);
  let g := gauge_with_lock g l in
  let value := val g in
  let labels := labels g in
  l ← sync.RUnlock (lock g);
  Some (gauge_with_lock g l, (value, labels)).

(** A caller that makes the calls [Set(ctx, v, labels)] one after the other. *)
Fixpoint gauge_Set_calls (g : gauge) (calls : list (LabelSet * Z)) : option gauge :=
  match calls with
  | [] => Some g
  | (labels, v) :: rest =>
      match gauge_Set g v labels with
      | Some g' => gauge_Set_calls g' rest
      | None => None
      end
  end.

(** ** The provider *)

Definition ebpfMeter : string := "ebpf.solo.io".

Record PrometheusOpts : Type := { Port : Z; MetricsPath : string }.

(** [PrometheusOpts.initDefaults]. *)
Definition initDefaults (p : PrometheusOpts) : PrometheusOpts :=
  let p := if decide (Port p = 0)
           then {| Port := 9091; MetricsPath := MetricsPath p |} else p in
  if decide (MetricsPath p = "")
  then {| Port := Port p; MetricsPath := "/metrics" |} else p.

(** What the constructor meets outside the process: whether
    [prometheus.New] builds the exporter, and the ports other listeners hold. *)
Record Host : Type := {
  exporter_error : option string;
  bound_ports : list Z
}.

Module http.

(** [ServeMux.HandleFunc] on a fresh mux panics on the empty pattern. *)
Definition HandleFunc (pattern : string) : outcome unit :=
  if decide (pattern = "") then Panic "http: invalid pattern"
  else Returned ().

(** [Server.ListenAndServe] on [":port"]: it returns at once with an error
    when the port cannot be bound, and serves otherwise.  Of the reasons for
    which a port cannot be bound the model has two: another listener holds it,
    or it is not a port number. *)
Inductive served : Type :=
| Listening (port : Z)
| Failed (err : string).

Definition ListenAndServe (h : Host) (port : Z) : served :=
  if decide (port ∈ bound_ports h) then Failed "bind: address already in use"
  else if decide (65535 < port) then Failed "invalid port"
  else Listening port.

End http.

Record metricsProvider : Type := { meter : string }.

(** What a call of the constructor leaves behind: the pair it returns
    (a provider, or the error with a nil provider), whether the provider of the
    exporter was installed as the global one, and the port on which the server
    goroutine listens, if it does. *)
Record construction : Type := {
  returned : metricsProvider + string;
  global_provider_set : bool;
  listener : option Z
}.

(** [NewPrometheusMetricsProvider], from its first statement on, for options
    that are there (the pointer is not nil) and a context that is not done.
    The goroutine that runs [server.ListenAndServe] drops the error it
    returns. *)
Definition NewPrometheusMetricsProvider (h : Host) (opts : PrometheusOpts)
  : outcome construction :=
  let opts := initDefaults opts in
  match exporter_error h with
  | Some err =>
      Returned {| returned := inr ("failed to initialize prometheus exporter " +:+ err);
                  global_provider_set := false;
                  listener := None |}
  | None =>
      match http.HandleFunc (MetricsPath opts) with
      | Panic msg => Panic msg
      | Fatal msg => Fatal msg
      | Returned _ =>
          let listener :=
            match http.ListenAndServe h (Port opts) with
            | http.Listening port => Some port
            | http.Failed _ => None
            end in
          Returned {| returned := inl {| meter := ebpfMeter |};
                      global_provider_set := true;
                      listener := listener |}
      end
  end.


(** ** Goroutines *)

(** One step of a goroutine on the state it shares with the others. *)
Inductive step (T S : Type) : Type :=
| Next (t : T) (s : S)   (* the goroutine runs its next statement *)
| Stay                   (* it waits for a lock, or has returned *)
| Crash.                 (* the process ends *)
Arguments Next {T S} t s.
Arguments Stay {T S}.
Arguments Crash {T S}.

Section Scheduler.

Context {T S : Type}.
Variable thread_step : T → S → step T S.

(** The scheduler lets goroutine [i] run one statement. *)
Definition sched_step (i : nat) (st : S * list T) : option (S * list T) :=
  match st.2 !! i with
  | None => Some st
  | Some t =>
      match thread_step t st.1 with
      | Next t' s' => Some (s', <[i := t']> st.2)
      | Stay => Some st
      | Crash => None
      end
  end.

(** A schedule names the goroutine that runs at each step; [None] when
    the process has ended on the way. *)
Fixpoint run (schedule : list nat) (st : S * list T) : option (S * list T) :=
  match schedule with
  | [] => Some st
  | i :: rest =>
      match sched_step i st with
      | Some st' => run rest st'
      | None => None
      end
  end.

End Scheduler.

Module GaugeThreads.

(** The goroutines that share a gauge: callers of [gauge.Set], with the
    arguments of the call, and runs of the observer callback, with its local
    variables. Each constructor is the statement the goroutine is at. *)
Inductive thread : Type :=
| SetLock (intVal : Z) (ls : list attribute.KeyValue)
| SetStoreLabels (intVal : Z) (ls : list attribute.KeyValue)
| SetStoreVal (intVal : Z) (ls : list attribute.KeyValue)
| SetUnlock (intVal : Z) (ls : list attribute.KeyValue)
| SetReturned (intVal : Z) (ls : list attribute.KeyValue)
| ObsRLock
| ObsLoadVal
| ObsLoadLabels (value : Z)
| ObsRUnlock (value : Z) (ls : list attribute.KeyValue)
| ObsObserve (value : Z) (ls : list attribute.KeyValue)
| ObsReturned (value : Z) (ls : list attribute.KeyValue).

(** A call [g.Set(ctx, intVal, decodedKey)]: the labels are transformed
    before the lock is asked for. *)
Definition Set_call (intVal : Z) (decodedKey : LabelSet) : thread :=
  SetLock intVal (transformLabels decodedKey).

(** A run of the observer callback. *)
Definition observer_call : thread := ObsRLock.

Definition thread_step (t : thread) (g : gauge) : step thread gauge :=
  match t with
  | SetLock v ls =>
      match sync.Lock (lock g) with
      | Some l => Next (SetStoreLabels v ls) (gauge_with_lock g l)
      | None => Stay
      end
  | SetStoreLabels v ls => Next (SetStoreVal v ls) (gauge_with_labels g ls)
  | SetStoreVal v ls => Next (SetUnlock v ls) (gauge_with_val g v)
  | SetUnlock v ls =>
      match sync.Unlock (lock g) with
      | Some l => Next (SetReturned v ls) (gauge_with_lock g l)
      | None => Crash
      end
  | SetReturned _ _ => Stay
  | ObsRLock =>
      match sync.RLock (lock g) with
      | Some l => Next ObsLoadVal (gauge_with_lock g l)
      | None => Stay
      end
  | ObsLoadVal => Next (ObsLoadLabels (val g)) g
  | ObsLoadLabels value => Next (ObsRUnlock value (labels g)) g
  | ObsRUnlock value ls =>
      match sync.RUnlock (lock g) with
      | Some l => Next (ObsObserve value ls) (gauge_with_lock g l)
      | None => Crash
      end
  | ObsObserve value ls => Next (ObsReturned value ls) g
  | ObsReturned _ _ => Stay
  end.

(** A goroutine that has not started its call. *)
Definition initial (t : thread) : Prop :=
  match t with
  | SetLock _ _ | ObsRLock => True
  | _ => False
  end.

(** Holding the lock for writing, and for reading. *)
Definition writing (t : thread) : nat :=
  match t with
  | SetStoreLabels _ _ | SetStoreVal _ _ | SetUnlock _ _ => 1
  | _ => 0
  end.

Definition reading (t : thread) : nat :=
  match t with
  | ObsLoadVal | ObsLoadLabels _ | ObsRUnlock _ _ => 1
  | _ => 0
  end.

(** What holds of a goroutine at its statement, for the gauge [g] and a
    set [P] of pairs: its own pair is in [P]; a writer that holds the lock
    has stored the part of its pair it is past; a reader that has loaded
    the value holds the stored one; a pair read in full is in [P]. *)
Definition thread_inv (P : Z * list attribute.KeyValue → Prop)
    (g : gauge) (t : thread) : Prop :=
  match t with
  | SetLock v ls | SetReturned v ls => P (v, ls)
  | SetStoreLabels v ls => P (v, ls) ∧ P (val g, labels g)
  | SetStoreVal v ls => P (v, ls) ∧ labels g = ls
  | SetUnlock v ls => P (v, ls) ∧ val g = v ∧ labels g = ls
  | ObsRLock | ObsLoadVal => True
  | ObsLoadLabels value => value = val g
  | ObsRUnlock value ls | ObsObserve value ls | ObsReturned value ls =>
      P (value, ls)
  end.

(** What holds of the gauge and its goroutines together: the mutex counts
    its holders, a writer excludes the readers, and while no writer holds
    the lock the stored pair is in [P]. *)
Definition sys_inv (P : Z * list attribute.KeyValue → Prop)
    (st : gauge * list thread) : Prop :=
  sum_list_with writing st.2
    = (if sync.writer (lock st.1) then 1 else 0)%nat ∧
  sum_list_with reading st.2 = sync.readers (lock st.1) ∧
  (sync.writer (lock st.1) = true → sync.readers (lock st.1) = 0%nat) ∧
  (sync.writer (lock st.1) = false → P (val st.1, labels st.1)) ∧
  Forall (thread_inv P st.1) st.2.

(** The pairs a reader may see: the pair the gauge held at the start and
    the pairs of the [Set] calls. *)
Definition whole_pair (g0 : gauge) (ts0 : list thread)
    (p : Z * list attribute.KeyValue) : Prop :=
  p = (val g0, labels g0) ∨ ∃ j, ts0 !! j = Some (SetLock p.1 p.2).

End GaugeThreads.

Module SetCounterThreads.

(** The goroutines that call [Set] on one [setCounter]; each
    constructor is the statement the goroutine is at, with its locals. *)
Inductive thread : Type :=
| SetHash (intVal : Z) (decodedKey : LabelSet)
| SetLookup (intVal : Z) (ls : list attribute.KeyValue) (keyHash : Z)
| SetCompare (intVal : Z) (ls : list attribute.KeyValue) (keyHash oldVal : Z)
| SetStore (intVal : Z) (ls : list attribute.KeyValue) (keyHash diff : Z)
| SetAdd (ls : list attribute.KeyValue) (diff : Z)
| SetReturned.

Section Steps.

Variable Hash : LabelSet → Z → hashstructure.result.

Definition thread_step (t : thread) (c : setCounter) : step thread setCounter :=
  match t with
  | SetHash intVal decodedKey =>
      let labels := transformLabels decodedKey in
      match Hash decodedKey hashstructure.FormatV2 with
      | inr err => Crash
      | inl keyHash => Next (SetLookup intVal labels keyHash) c
      end
  | SetLookup intVal ls keyHash =>
      let oldVal := default 0 (counterMap c !! keyHash) in
      Next (SetCompare intVal ls keyHash oldVal) c
  | SetCompare intVal ls keyHash oldVal =>
      let diff := Int64.sub intVal oldVal in
      if decide (oldVal = intVal) then Next SetReturned c
      else Next (SetStore intVal ls keyHash diff) c
  | SetStore intVal ls keyHash diff =>
      Next (SetAdd ls diff)
           {| counter := counter c;
              counterMap := <[keyHash := intVal]> (counterMap c) |}
  | SetAdd ls diff =>
      Next SetReturned
           {| counter := metric.Add (counter c) diff ls;
              counterMap := counterMap c |}
  | SetReturned => Stay
  end.

End Steps.

End SetCounterThreads.

(** ** Further observations on the instruments *)

(** The values recorded in [counterMap], added up. *)
Definition recorded_total (c : setCounter) : Z :=
  map_fold (λ _ v acc, v + acc) 0 (counterMap c).

(** A caller that makes the calls [Increment(ctx, labels)] one after the
    other. *)
Definition incrementCounter_Increment_calls
    (i : incrementCounter) (calls : list LabelSet) : incrementCounter :=
  foldl incrementCounter_Increment i calls.

(** An attribute read back as the pair it was built from. *)
Definition pair_of_KeyValue (kv : attribute.KeyValue) : string * string :=
  (attribute.Key kv, attribute.Value kv).

Module GaugeSchedules.

(** The goroutine has returned from its call. *)
Definition returned (t : GaugeThreads.thread) : bool :=
  match t with
  | GaugeThreads.SetReturned _ _ | GaugeThreads.ObsReturned _ _ => true
  | _ => false
  end.

(** The statements the goroutine has still to run. *)
Definition remaining (t : GaugeThreads.thread) : nat :=
  match t with
  | GaugeThreads.SetLock _ _ => 4
  | GaugeThreads.SetStoreLabels _ _ => 3
  | GaugeThreads.SetStoreVal _ _ => 2
  | GaugeThreads.SetUnlock _ _ => 1
  | GaugeThreads.SetReturned _ _ => 0
  | GaugeThreads.ObsRLock => 5
  | GaugeThreads.ObsLoadVal => 4
  | GaugeThreads.ObsLoadLabels _ => 3
  | GaugeThreads.ObsRUnlock _ _ => 2
  | GaugeThreads.ObsObserve _ _ => 1
  | GaugeThreads.ObsReturned _ _ => 0
  end.

(** The goroutine can run its next statement on the gauge [g]. *)
Definition can_step (t : GaugeThreads.thread) (g : gauge) : Prop :=
  ∃ t' g', GaugeThreads.thread_step t g = Next t' g'.

End GaugeSchedules.

Module SetCounterSchedules.

(** The schedule that lets goroutines [i], [i + 1], ..., [i + n - 1] run
    one after the other, each for the five statements of [Set]. *)
Fixpoint serial (i n : nat) : list nat :=
  match n with
  | O => []
  | S n' => replicate 5 i ++ serial (S i) n'
  end.

(** The goroutines of the calls [Set(ctx, v, labels)]. *)
Definition calls_threads (calls : list (LabelSet * Z)) : list SetCounterThreads.thread :=
  (λ call, SetCounterThreads.SetHash call.2 call.1) <$> calls.

End SetCounterSchedules.

(** ** pkg/cli/internal/push *)

Module push.

(** What [push] meets outside the process: the error, if any, of
    [content.NewOCI] for a storage directory, of [content.NewRegistry], and of
    [oras.Copy] for a reference, and the error with which the command
    line library refuses a number of arguments. *)
Record World : Type := {
  NewOCI_error : string → option string;
  NewRegistry_error : option string;
  Copy_error : string → option string;
  ExactArgs_error : nat → string
}.

(** The field of [options.GeneralOptions] that [push] reads by itself; the
    registry options are passed on to [content.NewRegistry] as they are. *)
Record GeneralOptions : Type := { OCIStorageDir : string }.

(** What [push] does that can be seen from outside, in order: the calls
    with the arguments the source gives them. *)
Inductive event : Type :=
| InfoPrintfln (format arg : string)
| NewOCI (dir : string)
| NewRegistry
| SpinnerStart (format arg : string)
| Copy (ref dst : string)
| SpinnerUpdateText (text : string)
| SpinnerFail
| SpinnerSuccess.

#[global] Instance event_eq_dec : EqDecision event.
Proof. solve_decision. Defined.

(** [push]: the calls made and the error returned, [None] for nil. *)
Definition push (w : World) (opts : GeneralOptions) (ref : string)
  : list event * option string :=
  let trace := [InfoPrintfln "Pushing eBPF image %s" ref] in
  let trace := trace ++ [NewOCI (OCIStorageDir opts)] in
  match NewOCI_error w (OCIStorageDir opts) with
  | Some err => (trace, Some err)
  | None =>
      let trace := trace ++ [NewRegistry] in
      match NewRegistry_error w with
      | Some err => (trace, Some err)
      | None =>
          let trace := trace ++ [SpinnerStart "Pushing image %s to remote registry" ref] in
          let trace := trace ++ [Copy ref ""] in
          match Copy_error w ref with
          | Some err =>
              let trace := trace ++ [SpinnerUpdateText ("Failed to push image " +:+ ref)] in
              let trace := trace ++ [SpinnerFail] in
              (trace, Some err)
          | None => (trace ++ [SpinnerSuccess], None)
          end
      end
  end.

(** The command built by [Command], run on its arguments: [cobra.ExactArgs(1)]
    refuses any other number of arguments before [RunE] is called, and [RunE]
    reads [args[0]]. *)
Definition RunE (w : World) (opts : GeneralOptions) (args : list string)
  : outcome (list event * option string) :=
  match args !! 0%nat with
  | Some ref => Returned (push w opts ref)
  | None => Panic "index out of range"
  end.

Definition Command (w : World) (opts : GeneralOptions) (args : list string)
  : outcome (list event * option string) :=
  if decide (length args = 1%nat) then RunE w opts args
  else Returned ([], Some (ExactArgs_error w (length args))).

End push.

(** ** Inputs used in the examples *)

Definition status_ok : LabelSet := [("status", "ok")]%string.

(** Two label sets with no pair in common whose entry hashes have the same
    exclusive or. *)
Definition colliding_A : LabelSet :=
  [("k4", "v4"); ("k5", "v5"); ("k6", "v6"); ("k8", "v8"); ("k9", "v9");
   ("k10", "v10"); ("k12", "v12"); ("k17", "v17"); ("k18", "v18");
   ("k19", "v19"); ("k21", "v21"); ("k23", "v23"); ("k24", "v24");
   ("k25", "v25")]%string.

Definition colliding_B : LabelSet :=
  [("k29", "v29"); ("k33", "v33"); ("k34", "v34"); ("k35", "v35");
   ("k36", "v36"); ("k39", "v39"); ("k40", "v40"); ("k41", "v41");
   ("k42", "v42"); ("k47", "v47"); ("k50", "v50"); ("k52", "v52");
   ("k57", "v57"); ("k62", "v62")]%string.

(** * Properties *)

(** ** Arithmetic of [int64] *)

Section Int64Facts.

Lemma Int64_wrap_in_range z : Int64.in_range (Int64.wrap z).
Proof.
  unfold Int64.in_range, Int64.wrap, Int64.min_signed, Int64.max_signed,
    Int64.modulus.
  pose proof (Z.mod_pos_bound (z + 2 ^ 63) (2 ^ 64)). lia.
Qed.

Lemma Int64_wrap_id z : Int64.in_range z → Int64.wrap z = z.
Proof.
  unfold Int64.in_range, Int64.wrap, Int64.min_signed, Int64.max_signed,
    Int64.modulus.
  intros Hz. rewrite Z.mod_small; lia.
Qed.

Lemma Int64_wrap_add_l a b : Int64.wrap (Int64.wrap a + b) = Int64.wrap (a + b).
Proof.
  unfold Int64.wrap, Int64.modulus.
  replace ((a + 2 ^ 63) mod 2 ^ 64 - 2 ^ 63 + b + 2 ^ 63)
    with ((a + 2 ^ 63) mod 2 ^ 64 + b) by lia.
  rewrite Zplus_mod_idemp_l. f_equal. f_equal. lia.
Qed.

Lemma Int64_wrap_add_r a b : Int64.wrap (a + Int64.wrap b) = Int64.wrap (a + b).
Proof. rewrite (Z.add_comm a), Int64_wrap_add_l. f_equal. lia. Qed.

Lemma Int64_sub_no_overflow a b :
  0 <= a <= Int64.max_signed → 0 <= b <= Int64.max_signed → Int64.sub a b = a - b.
Proof.
  intros Ha Hb. apply Int64_wrap_id.
  unfold Int64.in_range, Int64.min_signed, Int64.max_signed in *. lia.
Qed.

End Int64Facts.

(** ** The backend counter *)

Section CounterFacts.

Lemma metric_total_wrap_exact (ds : list Z) (acc : Z) :
  Int64.wrap (foldl Int64.add acc ds) = Int64.wrap (acc + foldr Z.add 0 ds).
Proof.
  revert acc. induction ds as [|d ds IH]; intros acc; simpl.
  - f_equal. lia.
  - rewrite IH. unfold Int64.add. rewrite Int64_wrap_add_l. f_equal. lia.
Qed.

Lemma metric_total_in_range (c : metric.Int64Counter) :
  Int64.in_range (metric.total c).
Proof.
  unfold metric.total. generalize (metric.deltas c). intros ds.
  assert (H : ∀ acc, Int64.in_range acc → Int64.in_range (foldl Int64.add acc ds)).
  { induction ds as [|d ds IH]; intros acc Hacc; simpl; [done|].
    apply IH, Int64_wrap_in_range. }
  apply H. unfold Int64.in_range, Int64.min_signed, Int64.max_signed. lia.
Qed.

Lemma metric_total_exact (c : metric.Int64Counter) :
  metric.total c = Int64.wrap (metric.exact_total c).
Proof.
  rewrite <- (Int64_wrap_id (metric.total c)) by apply metric_total_in_range.
  unfold metric.total, metric.exact_total. by rewrite metric_total_wrap_exact.
Qed.

Lemma metric_deltas_Add c d ls :
  metric.deltas (metric.Add c d ls) = metric.deltas c ++ [d].
Proof. unfold metric.deltas, metric.Add. by rewrite fmap_app. Qed.

Lemma metric_exact_total_Add c d ls :
  metric.exact_total (metric.Add c d ls) = metric.exact_total c + d.
Proof.
  unfold metric.exact_total. rewrite metric_deltas_Add, foldr_app. simpl.
  generalize (metric.deltas c). intros ds.
  induction ds as [|x ds IH]; simpl; lia.
Qed.

End CounterFacts.

(** ** The label-set hash *)

Section HashFacts.

Import hashstructure.

Lemma visit_entry_inl h k v : visit_entry h k v = inl (Z.lxor h (entry_hash (k, v))).
Proof.
  unfold visit_entry, visit_string, entry_hash, hashUpdateUnordered.
  cbv beta iota zeta delta [fst snd]. done.
Qed.

Lemma visit_entries_inl (m : LabelSet) (h : Z) :
  visit_entries h m = inl (Z.lxor h (xor_entries m)).
Proof.
  unfold visit_entries. revert h.
  induction m as [|[k v] m IH]; intros h.
  - cbn [range_until_error xor_entries foldr]. by rewrite Z.lxor_0_r.
  - cbn [range_until_error]. rewrite visit_entry_inl, IH.
    change (xor_entries ((k, v) :: m))
      with (Z.lxor (entry_hash (k, v)) (xor_entries m)).
    by rewrite Z.lxor_assoc.
Qed.

Lemma xor_entries_Permutation (m1 m2 : LabelSet) :
  m1 ≡ₚ m2 → xor_entries m1 = xor_entries m2.
Proof.
  induction 1 as [|x l l' _ IH|x y l|l l' l'' _ IH1 _ IH2].
  - done.
  - change (Z.lxor (entry_hash x) (xor_entries l)
            = Z.lxor (entry_hash x) (xor_entries l')).
    by rewrite IH.
  - change (Z.lxor (entry_hash y) (Z.lxor (entry_hash x) (xor_entries l))
            = Z.lxor (entry_hash x) (Z.lxor (entry_hash y) (xor_entries l))).
    rewrite <- !Z.lxor_assoc. f_equal. apply Z.lxor_comm.
  - congruence.
Qed.

Lemma same_pairs_Permutation (m1 m2 : LabelSet) :
  wf_labels m1 → wf_labels m2 → same_pairs m1 m2 → m1 ≡ₚ m2.
Proof.
  intros Hwf1 Hwf2 Hsame.
  apply NoDup_Permutation.
  - by apply (NoDup_fmap_1 fst).
  - by apply (NoDup_fmap_1 fst).
  - intros [k v]. apply Hsame.
Qed.

Lemma Hash_FormatV2 (m : LabelSet) :
  Hash m FormatV2 = inl (hashFinishUnordered (xor_entries m)).
Proof.
  unfold Hash, visit_map. rewrite visit_entries_inl, Z.lxor_0_l.
  reflexivity.
Qed.

Lemma Uint64_lxor_in_range (a c : Z) :
  Uint64.in_range a → Uint64.in_range c → Uint64.in_range (Z.lxor a c).
Proof.
  unfold Uint64.in_range, Uint64.modulus. intros [Ha0 Ha] [Hc0 Hc].
  assert (Hnn : 0 <= Z.lxor a c) by (apply Z.lxor_nonneg; lia).
  split; [exact Hnn|].
  destruct (decide (Z.lxor a c = 0)) as [->|Hnz]; [lia|].
  apply Z.log2_lt_pow2; [lia|].
  pose proof (Z.log2_lxor a c Ha0 Hc0) as Hlog.
  assert (Hla : Z.log2 a < 64).
  { destruct (decide (a = 0)) as [->|]; [done|]. apply Z.log2_lt_pow2; lia. }
  assert (Hlc : Z.log2 c < 64).
  { destruct (decide (c = 0)) as [->|]; [done|]. apply Z.log2_lt_pow2; lia. }
  lia.
Qed.

Lemma fnv_Write_in_range (h : Z) (data : list Z) :
  data ≠ [] → Forall Uint64.in_range data → Uint64.in_range (fnv.Write h data).
Proof.
  induction data as [|c data _] using rev_ind; [done|]. intros _ Hdata.
  assert (Hc : Uint64.in_range c).
  { apply (proj1 (Forall_forall _ _) Hdata). apply elem_of_app. right.
    apply list_elem_of_singleton. reflexivity. }
  unfold fnv.Write. rewrite foldl_app. cbn [foldl].
  apply Uint64_lxor_in_range; [|exact Hc].
  unfold Uint64.in_range, Uint64.wrap, Uint64.modulus.
  apply Z.mod_pos_bound. lia.
Qed.

Lemma le_uint64_in_range (x : Z) : Forall Uint64.in_range (le_uint64 x).
Proof.
  unfold le_uint64. apply Forall_fmap, Forall_forall. intros i _. cbn.
  unfold Uint64.in_range, Uint64.modulus.
  assert (H : 0 <= Z.land (Z.shiftr x (8 * i)) 255 < 2 ^ 8).
  { change 255 with (Z.ones 8). rewrite Z.land_ones by lia.
    apply Z.mod_pos_bound. lia. }
  lia.
Qed.

Lemma hashFinishUnordered_in_range (a : Z) :
  Uint64.in_range (hashFinishUnordered a).
Proof.
  unfold hashFinishUnordered, fnv.Sum64.
  apply fnv_Write_in_range; [|apply le_uint64_in_range].
  unfold le_uint64. cbn [fmap list_fmap]. discriminate.
Qed.

Lemma Hash_Permutation (m1 m2 : LabelSet) (format : Z) :
  m1 ≡ₚ m2 → Hash m1 format = Hash m2 format.
Proof.
  intros Hp. unfold Hash, visit_map.
  by rewrite !visit_entries_inl, (xor_entries_Permutation _ _ Hp).
Qed.

End HashFacts.

(** C2. The hash of a label set does not depend on the order in which the
    map was filled or is enumerated: two maps that hold identical key/value
    pairs have the same hash, whatever the format, and so [Set] records a
    value for either of them in the same entry of [counterMap]. *)
Theorem Hash_order_independent (m1 m2 : LabelSet) (format : Z) :
  wf_labels m1 → wf_labels m2 → same_pairs m1 m2 →
  hashstructure.Hash m1 format = hashstructure.Hash m2 format ∧
  ∀ c intVal c1 c2,
    setCounter_Set hashstructure.Hash c intVal m1 = Returned c1 →
    setCounter_Set hashstructure.Hash c intVal m2 = Returned c2 →
    counterMap c1 = counterMap c2.
Proof.
  intros Hwf1 Hwf2 Hsame.
  assert (Hp : m1 ≡ₚ m2) by (apply same_pairs_Permutation; assumption).
  split; [by apply Hash_Permutation|].
  intros c intVal c1 c2. unfold setCounter_Set.
  rewrite (Hash_Permutation m1 m2 _ Hp), Hash_FormatV2.
  generalize (hashstructure.hashFinishUnordered (hashstructure.xor_entries m2)).
  intros keyHash. case_decide; intros H1 H2.
  - congruence.
  - injection H1 as <-. injection H2 as <-. reflexivity.
Qed.

Lemma Hash_order_independent_witness :
  hashstructure.Hash [("op", "push"); ("status", "ok")]%string hashstructure.FormatV2
  = hashstructure.Hash [("status", "ok"); ("op", "push")]%string hashstructure.FormatV2 ∧
  ∀ c intVal c1 c2,
    setCounter_Set hashstructure.Hash c intVal [("op", "push"); ("status", "ok")]%string
    = Returned c1 →
    setCounter_Set hashstructure.Hash c intVal [("status", "ok"); ("op", "push")]%string
    = Returned c2 →
    counterMap c1 = counterMap c2.
Proof.
  apply Hash_order_independent.
  - apply (bool_decide_unpack _). vm_compute. reflexivity.
  - apply (bool_decide_unpack _). vm_compute. reflexivity.
  - intros k v. rewrite !elem_of_cons, !elem_of_nil. tauto.
Defined.

(** C7. The hash of a map of strings never fails, so [Set] never reaches
    [log.Fatal]: for every label map the hash is a 64-bit key, and [Set]
    returns for every value and instrument. *)
Theorem Hash_never_fails (m : LabelSet) :
  (∃ keyHash, hashstructure.Hash m hashstructure.FormatV2 = inl keyHash ∧
              Uint64.in_range keyHash) ∧
  (∀ c intVal, ∃ c', setCounter_Set hashstructure.Hash c intVal m = Returned c').
Proof.
  split.
  - eexists. split; [apply Hash_FormatV2|apply hashFinishUnordered_in_range].
  - intros c intVal. unfold setCounter_Set. rewrite Hash_FormatV2.
    case_decide; eauto.
Qed.

Lemma default_last_cons {A : Type} (a v : A) (vs : list A) :
  default a (last (v :: vs)) = default v (last vs).
Proof.
  revert a v. induction vs as [|w ws IH]; intros a v; [done|].
  rewrite last_cons_cons. by rewrite (IH a w), (IH v w).
Qed.

Section SetCounterFacts.

Variable Hash : LabelSet → Z → hashstructure.result.

Lemma setCounter_Set_same_value c intVal m keyHash :
  Hash m hashstructure.FormatV2 = inl keyHash →
  baseline c keyHash = intVal →
  setCounter_Set Hash c intVal m = Returned c.
Proof.
  intros HH Hb. unfold setCounter_Set, baseline in *. rewrite HH.
  by rewrite decide_True.
Qed.

Lemma setCounter_Set_new_value c intVal m keyHash :
  Hash m hashstructure.FormatV2 = inl keyHash →
  baseline c keyHash ≠ intVal →
  setCounter_Set Hash c intVal m =
    Returned {| counter := metric.Add (counter c)
                             (Int64.sub intVal (baseline c keyHash))
                             (transformLabels m);
                counterMap := <[keyHash := intVal]> (counterMap c) |}.
Proof.
  intros HH Hb. unfold setCounter_Set, baseline in *. rewrite HH.
  by rewrite decide_False.
Qed.

(** One call: it returns, the key holds the value set, the other keys keep
    theirs, and the backend has received what brings its exact sum from
    the old baseline to the new value, modulo 2^64. *)
Lemma setCounter_Set_step c intVal m keyHash :
  Hash m hashstructure.FormatV2 = inl keyHash →
  ∃ c', setCounter_Set Hash c intVal m = Returned c' ∧
        baseline c' keyHash = intVal ∧
        (∀ k, k ≠ keyHash → counterMap c' !! k = counterMap c !! k) ∧
        (∃ new, counter c' = counter c ++ new ∧
                Forall (λ e, e.2 = transformLabels m) new ∧
                Int64.wrap (baseline c keyHash + foldr Z.add 0 new.*1)
                = Int64.wrap intVal).
Proof.
  intros HH. destruct (decide (baseline c keyHash = intVal)) as [Heq|Hne].
  - exists c. rewrite (setCounter_Set_same_value _ _ _ _ HH Heq).
    repeat split; [done|]. exists []. rewrite app_nil_r. cbn.
    repeat split; [by constructor|]. f_equal. lia.
  - eexists. rewrite (setCounter_Set_new_value _ _ _ _ HH Hne).
    split; [done|]. unfold baseline. cbn [counter counterMap].
    rewrite lookup_insert_eq. repeat split; [|].
    + intros k Hk. by rewrite lookup_insert_ne.
    + eexists. split; [done|]. split; [by repeat constructor|].
      cbn. unfold Int64.sub. rewrite Z.add_0_r, Int64_wrap_add_r.
      f_equal. lia.
Qed.

(** A run of calls on one label key. *)
Lemma setCounter_Set_calls_same_key (vs : list Z) c m keyHash :
  Hash m hashstructure.FormatV2 = inl keyHash →
  ∃ c', setCounter_Set_calls Hash c ((λ v, (m, v)) <$> vs) = Returned c' ∧
        baseline c' keyHash = default (baseline c keyHash) (last vs) ∧
        (∃ new, counter c' = counter c ++ new ∧
                Forall (λ e, e.2 = transformLabels m) new ∧
                Int64.wrap (baseline c keyHash + foldr Z.add 0 new.*1)
                = Int64.wrap (default (baseline c keyHash) (last vs))).
Proof.
  intros HH. revert c.
  induction vs as [|v vs IH]; intros c.
  - exists c. split; [done|]. split; [done|]. exists [].
    rewrite app_nil_r. cbn. repeat split; [by constructor|]. f_equal. lia.
  - destruct (setCounter_Set_step c v m keyHash HH)
      as (c1 & Hset & Hb1 & _ & new1 & Hc1 & Hl1 & Hsum1).
    destruct (IH c1) as (c2 & Hrun & Hb2 & new2 & Hc2 & Hl2 & Hsum2).
    exists c2. cbn [fmap list_fmap setCounter_Set_calls]. rewrite Hset.
    split; [exact Hrun|].
    assert (Hlast : default (baseline c keyHash) (last (v :: vs))
                    = default (baseline c1 keyHash) (last vs)).
    { rewrite Hb1. apply default_last_cons. }
    rewrite Hlast. split; [exact Hb2|].
    exists (new1 ++ new2). rewrite Hc2, Hc1, <- app_assoc.
    split; [done|]. split; [by apply Forall_app|].
    rewrite fmap_app, foldr_app.
    assert (Hfold : ∀ (l : list Z) a, foldr Z.add a l = a + foldr Z.add 0 l).
    { induction l as [|x l IHl]; intros a; cbn; [lia|]. rewrite IHl. lia. }
    rewrite Hfold, <- Hsum2, Hb1.
    replace (baseline c keyHash + (foldr Z.add 0 new2.*1 + foldr Z.add 0 new1.*1))
      with (baseline c keyHash + foldr Z.add 0 new1.*1 + foldr Z.add 0 new2.*1)
      by lia.
    by rewrite <- Int64_wrap_add_l, Hsum1, Int64_wrap_add_l.
Qed.

(** Values that a counter takes, from zero up: no subtraction wraps, and
    the increments sum to the last value exactly. *)
Lemma setCounter_Set_calls_exact_sum (vs : list Z) c m keyHash :
  Hash m hashstructure.FormatV2 = inl keyHash →
  Forall (λ v, 0 <= v <= Int64.max_signed) vs →
  0 <= baseline c keyHash <= Int64.max_signed →
  ∃ c' new, setCounter_Set_calls Hash c ((λ v, (m, v)) <$> vs) = Returned c' ∧
            counter c' = counter c ++ new ∧
            baseline c keyHash + foldr Z.add 0 new.*1
            = default (baseline c keyHash) (last vs).
Proof.
  intros HH Hvs. revert c.
  induction Hvs as [|v vs Hv _ IH]; intros c Hb.
  - exists c, []. rewrite app_nil_r. cbn. repeat split; lia.
  - cbn [fmap list_fmap setCounter_Set_calls].
    rewrite (default_last_cons (baseline c keyHash) v vs).
    destruct (decide (baseline c keyHash = v)) as [Heq|Hne].
    + rewrite (setCounter_Set_same_value _ _ _ _ HH Heq).
      destruct (IH c Hb) as (c' & new & Hrun & Hc & Hsum).
      exists c', new. rewrite <- Heq. done.
    + rewrite (setCounter_Set_new_value _ _ _ _ HH Hne).
      set (c1 := {| counter := _; counterMap := _ |}).
      assert (Hb1 : baseline c1 keyHash = v).
      { unfold baseline, c1. cbn [counterMap]. by rewrite lookup_insert_eq. }
      destruct (IH c1) as (c' & new & Hrun & Hc & Hsum); [by rewrite Hb1|].
      exists c', ((Int64.sub v (baseline c keyHash), transformLabels m) :: new).
      split; [exact Hrun|]. split.
      * rewrite Hc. unfold c1, metric.Add. cbn [counter].
        by rewrite <- app_assoc.
      * rewrite Hb1 in Hsum. cbn [fmap list_fmap foldr fst].
        rewrite Int64_sub_no_overflow by done. lia.
Qed.

End SetCounterFacts.

(** C1. Calls [Set(labels, v1)], ..., [Set(labels, vn)] on a set counter
    that has recorded nothing for the label set, all with the same label
    set: the calls return, every increment they send reaches the backend
    under the attributes of [labels], and the increments sum, in the backend's
    [int64], to [vn - 0] (to zero when no call is made).  And a call whose
    value is the one recorded for the label set returns the instrument as it
    was: the backend receives nothing. *)
Theorem setCounter_Set_cumulative_sum
    (Hash : LabelSet → Z → hashstructure.result)
    (c : setCounter) (labels : LabelSet) (keyHash : Z) (vs : list Z) :
  Hash labels hashstructure.FormatV2 = inl keyHash →
  Forall Int64.in_range vs →
  baseline c keyHash = 0 →
  (∃ c' new,
     setCounter_Set_calls Hash c ((λ v, (labels, v)) <$> vs) = Returned c' ∧
     counter c' = counter c ++ new ∧
     metric.total new = default 0 (last vs) - 0 ∧
     Forall (λ e, e.2 = transformLabels labels) new) ∧
  (∀ c0 v, baseline c0 keyHash = v → setCounter_Set Hash c0 v labels = Returned c0).
Proof.
  intros HH Hvs Hzero. split.
  - destruct (setCounter_Set_calls_same_key Hash vs c labels keyHash HH)
      as (c' & Hrun & _ & new & Hc & Hl & Hsum).
    exists c', new. split; [exact Hrun|]. split; [exact Hc|]. split; [|exact Hl].
    rewrite metric_total_exact. unfold metric.exact_total, metric.deltas.
    rewrite Hzero, Z.add_0_l in Hsum. rewrite Hsum, Z.sub_0_r.
    apply Int64_wrap_id.
    destruct (last vs) as [v|] eqn:Hlast; cbn.
    + apply last_Some_elem_of in Hlast.
      by eapply (proj1 (Forall_forall _ _) Hvs).
    + unfold Int64.in_range, Int64.min_signed, Int64.max_signed. lia.
  - intros c0 v Hb. by eapply setCounter_Set_same_value.
Qed.

Lemma setCounter_Set_cumulative_sum_witness :
  (∃ c' new,
     setCounter_Set_calls hashstructure.Hash NewSetCounter
       ((λ v, (status_ok, v)) <$> [10; 10; 15]) = Returned c' ∧
     counter c' = counter NewSetCounter ++ new ∧
     metric.total new = default 0 (last [10; 10; 15]) - 0 ∧
     Forall (λ e, e.2 = transformLabels status_ok) new) ∧
  (∀ c0 v, baseline c0 9644816166288475802 = v →
           setCounter_Set hashstructure.Hash c0 v status_ok = Returned c0).
Proof.
  apply (setCounter_Set_cumulative_sum hashstructure.Hash NewSetCounter status_ok
           9644816166288475802 [10; 10; 15]).
  - vm_compute. reflexivity.
  - repeat constructor; vm_compute; intros H; discriminate H.
  - reflexivity.
Defined.

(** The scenario of the spec: 10, 10, 15 reach the backend as +10 and +5. *)
Example setCounter_Set_scenario :
  ∃ c', setCounter_Set_calls hashstructure.Hash NewSetCounter
          [(status_ok, 10); (status_ok, 10); (status_ok, 15)] = Returned c' ∧
        metric.deltas (counter c') = [10; 5] ∧ metric.total (counter c') = 15.
Proof. eexists. split; [vm_compute; reflexivity|]. split; vm_compute; reflexivity. Qed.

(** At the ends of the range the subtraction wraps, and so does the sum. *)
Example setCounter_Set_wraps :
  ∃ c', setCounter_Set_calls hashstructure.Hash NewSetCounter
          [(status_ok, Int64.max_signed); (status_ok, Int64.min_signed)]
        = Returned c' ∧
        metric.deltas (counter c') = [Int64.max_signed; 1] ∧
        metric.total (counter c') = Int64.min_signed.
Proof. eexists. split; [vm_compute; reflexivity|]. split; vm_compute; reflexivity. Qed.

(** Three increments under one label set: the backend receives 1 three
    times. *)
Example incrementCounter_Increment_scenario :
  let push := [("op", "push")]%string in
  let i := incrementCounter_Increment
             (incrementCounter_Increment
                (incrementCounter_Increment NewIncrementCounter push) push) push in
  metric.deltas (inc_counter i) = [1; 1; 1] ∧ metric.total (inc_counter i) = 3.
Proof. split; vm_compute; reflexivity. Qed.



(** The two label sets hash to the same key although they share no pair. *)
Lemma colliding_labels_same_key :
  hashstructure.Hash colliding_A hashstructure.FormatV2
  = hashstructure.Hash colliding_B hashstructure.FormatV2.
Proof. vm_compute. reflexivity. Qed.

(** C8, as stated, fails where two label sets of different content share
    their hash: after [Set(A, 5)], the call [Set(B, 3)] finds the baseline 5
    of [A] under its own key and sends -2 to the backend, not 3. *)
Lemma setCounter_Set_colliding_labels :
  wf_labels colliding_A ∧ wf_labels colliding_B ∧
  ¬ same_pairs colliding_A colliding_B ∧
  ∃ c', setCounter_Set_calls hashstructure.Hash NewSetCounter
          [(colliding_A, 5); (colliding_B, 3)] = Returned c' ∧
        metric.deltas (counter c') = [5; -2] ∧
        metric.deltas (counter c') ≠ [5; 3].
Proof.
  split; [apply (bool_decide_unpack _); vm_compute; reflexivity|].
  split; [apply (bool_decide_unpack _); vm_compute; reflexivity|].
  split.
  - intros Hsame. specialize (Hsame "k4" "v4")%string.
    assert (Hin : (("k4", "v4") : string * string)%string ∈ colliding_B).
    { apply Hsame. apply (bool_decide_unpack _). vm_compute. reflexivity. }
    revert Hin. apply (bool_decide_unpack _). vm_compute. reflexivity.
  - eexists. split; [vm_compute; reflexivity|].
    split; [vm_compute; reflexivity|]. vm_compute. intros H. discriminate H.
Qed.

(** C8, amended. For two label sets whose hash keys differ, [Set(A, 5)]
    followed by [Set(B, 3)] on a new set counter sends 5 under the attributes
    of [A] and 3 under the attributes of [B]; and a call on [A] leaves the
    value recorded under every other key as it was. *)
Theorem setCounter_Set_independent_baselines
    (Hash : LabelSet → Z → hashstructure.result)
    (A B : LabelSet) (keyA keyB : Z) :
  Hash A hashstructure.FormatV2 = inl keyA →
  Hash B hashstructure.FormatV2 = inl keyB →
  keyA ≠ keyB →
  (∃ c', setCounter_Set_calls Hash NewSetCounter [(A, 5); (B, 3)] = Returned c' ∧
         counter c' = [(5, transformLabels A); (3, transformLabels B)]) ∧
  (∀ c v c' k, setCounter_Set Hash c v A = Returned c' → k ≠ keyA →
               counterMap c' !! k = counterMap c !! k).
Proof.
  intros HA HB Hne. split.
  - eexists. cbn [setCounter_Set_calls].
    rewrite (setCounter_Set_new_value Hash _ _ _ _ HA) by done.
    rewrite (setCounter_Set_new_value Hash _ _ _ _ HB).
    + split; [reflexivity|]. unfold baseline. cbn [counter counterMap NewSetCounter].
      rewrite lookup_insert_ne by done. rewrite !lookup_empty. reflexivity.
    + unfold baseline. cbn [counterMap NewSetCounter].
      rewrite lookup_insert_ne by done. rewrite lookup_empty. done.
  - intros c v c' k Hset Hk.
    destruct (setCounter_Set_step Hash c v A keyA HA) as (c1 & Hset1 & _ & Hframe & _).
    rewrite Hset in Hset1. injection Hset1 as ->. by apply Hframe.
Qed.

Lemma setCounter_Set_independent_baselines_witness :
  (∃ c', setCounter_Set_calls hashstructure.Hash NewSetCounter
           [(status_ok, 5); (colliding_B, 3)] = Returned c' ∧
         counter c' = [(5, transformLabels status_ok);
                       (3, transformLabels colliding_B)]) ∧
  (∀ c v c' k, setCounter_Set hashstructure.Hash c v status_ok = Returned c' →
               k ≠ 9644816166288475802 →
               counterMap c' !! k = counterMap c !! k).
Proof.
  apply (setCounter_Set_independent_baselines hashstructure.Hash
           status_ok colliding_B 9644816166288475802 16458852455478140696).
  - vm_compute. reflexivity.
  - vm_compute. reflexivity.
  - intros H. discriminate H.
Defined.

(** ** The gauge, one call at a time *)

Section GaugeFacts.

Lemma gauge_Set_unlocked g intVal decodedKey :
  lock g = sync.unlocked →
  gauge_Set g intVal decodedKey
  = Some {| val := intVal; labels := transformLabels decodedKey;
            lock := sync.unlocked |}.
Proof.
  intros Hl. unfold gauge_Set, gauge_with_lock, gauge_with_labels, gauge_with_val.
  rewrite Hl. reflexivity.
Qed.

Lemma gauge_observer_unlocked g :
  lock g = sync.unlocked →
  gauge_observer g = Some (g, (val g, labels g)).
Proof.
  intros Hl. unfold gauge_observer, gauge_with_lock. rewrite Hl. cbn.
  destruct g as [v ls l]. cbn in *. by subst l.
Qed.

Lemma gauge_observer_snapshot g g' p :
  gauge_observer g = Some (g', p) →
  p = (val g, labels g) ∧ val g' = val g ∧ labels g' = labels g.
Proof.
  unfold gauge_observer, gauge_with_lock, sync.RLock, sync.RUnlock.
  destruct (sync.writer (lock g)); cbn; [discriminate|].
  intros H. injection H as <- <-. done.
Qed.

End GaugeFacts.

(** C4. A gauge has one slot: whatever the label sets of the calls, after a
    run of [Set] calls the stored value and labels are those of the last
    call (and those it had before when no call was made). *)
Theorem gauge_Set_single_slot (g : gauge) (calls : list (LabelSet * Z)) :
  lock g = sync.unlocked →
  ∃ g', gauge_Set_calls g calls = Some g' ∧
        lock g' = sync.unlocked ∧
        (val g', labels g')
        = default (val g, labels g)
            (last ((λ call, (call.2, transformLabels call.1)) <$> calls)).
Proof.
  revert g. induction calls as [|[m v] calls IH]; intros g Hl.
  - exists g. done.
  - cbn [gauge_Set_calls]. rewrite (gauge_Set_unlocked g v m Hl).
    destruct (IH {| val := v; labels := transformLabels m; lock := sync.unlocked |})
      as (g' & Hrun & Hl' & Hlast); [done|].
    exists g'. split; [exact Hrun|]. split; [exact Hl'|].
    rewrite Hlast. cbn [val labels fmap list_fmap].
    symmetry. apply (default_last_cons (val g, labels g) (v, transformLabels m)).
Qed.

Lemma gauge_Set_single_slot_witness :
  ∃ g', gauge_Set_calls NewGauge [(status_ok, 7); ([("op", "push")]%string, 2)]
        = Some g' ∧
        lock g' = sync.unlocked ∧
        (val g', labels g')
        = default (val NewGauge, labels NewGauge)
            (last ((λ call, (call.2, transformLabels call.1))
                     <$> [(status_ok, 7); ([("op", "push")]%string, 2)])).
Proof.
  apply (gauge_Set_single_slot NewGauge
           [(status_ok, 7); ([("op", "push")]%string, 2)]).
  reflexivity.
Defined.

(** ** The provider *)

Section ProviderFacts.

Lemma initDefaults_MetricsPath opts : MetricsPath (initDefaults opts) ≠ "".
Proof.
  unfold initDefaults. repeat case_decide; cbn in *; done.
Qed.

Lemma NewPrometheusMetricsProvider_exporter_ok h opts :
  exporter_error h = None →
  NewPrometheusMetricsProvider h opts
  = Returned {| returned := inl {| meter := ebpfMeter |};
                global_provider_set := true;
                listener :=
                  match http.ListenAndServe h (Port (initDefaults opts)) with
                  | http.Listening port => Some port
                  | http.Failed _ => None
                  end |}.
Proof.
  intros He. unfold NewPrometheusMetricsProvider. rewrite He.
  unfold http.HandleFunc.
  by rewrite (decide_False (P := MetricsPath (initDefaults opts) = ""))
    by apply initDefaults_MetricsPath.
Qed.

End ProviderFacts.

(** C3, as stated, fails: with port 9091 held by another listener the
    constructor returns a provider and no error. *)
Lemma NewPrometheusMetricsProvider_bound_port_no_error :
  let h := {| exporter_error := None; bound_ports := [9091] |} in
  let opts := {| Port := 9091; MetricsPath := "/metrics" |} in
  Port (initDefaults opts) ∈ bound_ports h ∧
  NewPrometheusMetricsProvider h opts
  = Returned {| returned := inl {| meter := ebpfMeter |};
                global_provider_set := true;
                listener := None |}.
Proof.
  split; [|reflexivity]. apply (bool_decide_unpack _). vm_compute. reflexivity.
Qed.

(** C3, amended. When the port is already bound at the OS level, the
    constructor returns without a panic and no listener is started; it
    returns an error exactly when the exporter cannot be built, and a
    provider with no error otherwise: the error of the failed bind is dropped
    inside the server goroutine. *)
Theorem NewPrometheusMetricsProvider_bound_port (h : Host) (opts : PrometheusOpts) :
  Port (initDefaults opts) ∈ bound_ports h →
  ∃ c, NewPrometheusMetricsProvider h opts = Returned c ∧
       listener c = None ∧
       (exporter_error h = None → returned c = inl {| meter := ebpfMeter |}) ∧
       (∀ err, exporter_error h = Some err → ∃ msg, returned c = inr msg).
Proof.
  intros Hbound. destruct (exporter_error h) as [err|] eqn:He.
  - unfold NewPrometheusMetricsProvider. rewrite He. eexists.
    split; [reflexivity|]. cbn. split; [done|]. split; [done|]. eauto.
  - rewrite (NewPrometheusMetricsProvider_exporter_ok h opts He).
    eexists. split; [reflexivity|]. cbn [listener returned].
    unfold http.ListenAndServe. rewrite decide_True by done.
    split; [done|]. split; [done|]. intros err Herr. discriminate Herr.
Qed.

Lemma NewPrometheusMetricsProvider_bound_port_witness :
  ∃ c, NewPrometheusMetricsProvider
         {| exporter_error := None; bound_ports := [9091] |}
         {| Port := 0; MetricsPath := "" |} = Returned c ∧
       listener c = None ∧
       (exporter_error {| exporter_error := None; bound_ports := [9091] |} = None →
        returned c = inl {| meter := ebpfMeter |}) ∧
       (∀ err, exporter_error {| exporter_error := None; bound_ports := [9091] |}
               = Some err → ∃ msg, returned c = inr msg).
Proof.
  apply (NewPrometheusMetricsProvider_bound_port
           {| exporter_error := None; bound_ports := [9091] |}
           {| Port := 0; MetricsPath := "" |}).
  apply (bool_decide_unpack _). vm_compute. reflexivity.
Defined.

(** ** Goroutines on one set counter *)

Section SetCounterThreadsFacts.

Import SetCounterThreads.
Variable Hash : LabelSet → Z → hashstructure.result.

(** A goroutine that runs alone does what [Set] does. *)
Lemma SetCounterThreads_alone c intVal decodedKey :
  run (thread_step Hash) (replicate 5 0%nat) (c, [SetHash intVal decodedKey])
  = match setCounter_Set Hash c intVal decodedKey with
    | Returned c' => Some (c', [SetReturned])
    | _ => None
    end.
Proof.
  unfold setCounter_Set. cbn.
  destruct (Hash decodedKey hashstructure.FormatV2) as [keyHash|err]; [|done].
  cbn. case_decide; cbn; [done|]. by destruct c.
Qed.

End SetCounterThreadsFacts.

(** C5. [setCounter] holds no lock. Two goroutines that call [Set] with the
    same labels on a new set counter, the values being 5 and 3, can both read
    the baseline 0 before either stores: the backend then receives 5 and 3,
    eight in all, while [counterMap] records 3. *)
Theorem setCounter_Set_concurrent_lost_update :
  ∃ c, run (SetCounterThreads.thread_step hashstructure.Hash)
           [0; 0; 1; 1; 0; 0; 0; 1; 1; 1]%nat
           (NewSetCounter,
            [SetCounterThreads.SetHash 5 status_ok;
             SetCounterThreads.SetHash 3 status_ok])
       = Some (c, [SetCounterThreads.SetReturned; SetCounterThreads.SetReturned]) ∧
       baseline c 9644816166288475802 = 3 ∧
       metric.deltas (counter c) = [5; 3] ∧
       metric.total (counter c) = 8.
Proof.
  eexists. split; [vm_compute; reflexivity|].
  split; [vm_compute; reflexivity|]. split; vm_compute; reflexivity.
Qed.

(** ** Goroutines on one gauge *)

Section Counting.

Context {A : Type} (f : A → nat).

Lemma sum_list_with_insert (l : list A) (i : nat) (x y : A) :
  l !! i = Some x →
  (sum_list_with f (<[i := y]> l) + f x = sum_list_with f l + f y)%nat.
Proof.
  revert i. induction l as [|a l IH]; intros [|i] Hi; try done.
  - injection Hi as ->. cbn. lia.
  - change (<[S i := y]> (a :: l)) with (a :: <[i := y]> l).
    cbn [sum_list_with]. specialize (IH i Hi). lia.
Qed.

Lemma sum_list_with_lookup_le (l : list A) (i : nat) (x : A) :
  l !! i = Some x → (f x ≤ sum_list_with f l)%nat.
Proof.
  revert i. induction l as [|a l IH]; intros [|i] Hi; try done.
  - injection Hi as ->. cbn. lia.
  - cbn. specialize (IH i Hi). lia.
Qed.

Lemma sum_list_with_lookup_two (l : list A) (i j : nat) (x y : A) :
  i ≠ j → l !! i = Some x → l !! j = Some y →
  (f x + f y ≤ sum_list_with f l)%nat.
Proof.
  revert i j. induction l as [|a l IH]; intros [|i] [|j] Hne Hi Hj; try done.
  - injection Hi as ->. cbn in *.
    pose proof (sum_list_with_lookup_le l j y Hj). lia.
  - injection Hj as ->. cbn in *.
    pose proof (sum_list_with_lookup_le l i x Hi). lia.
  - cbn in *. assert (Hne' : i ≠ j) by congruence.
    specialize (IH i j Hne' Hi Hj). lia.
Qed.

Lemma sum_list_with_only (l : list A) (i j : nat) (x y : A) :
  l !! i = Some x → sum_list_with f l = f x →
  j ≠ i → l !! j = Some y → f y = 0%nat.
Proof.
  intros Hi Hsum Hne Hj.
  assert (Hne' : i ≠ j) by congruence.
  pose proof (sum_list_with_lookup_two l i j x y Hne' Hi Hj). lia.
Qed.

Lemma sum_list_with_zero (l : list A) (j : nat) (y : A) :
  sum_list_with f l = 0%nat → l !! j = Some y → f y = 0%nat.
Proof.
  intros Hsum Hj. pose proof (sum_list_with_lookup_le l j y Hj). lia.
Qed.

End Counting.

Section GaugeThreadsFacts.

Import GaugeThreads.

Variable P : Z * list attribute.KeyValue → Prop.

Lemma thread_inv_same_data g g' t :
  val g' = val g → labels g' = labels g →
  thread_inv P g t → thread_inv P g' t.
Proof. intros Hv Hl. destruct t; cbn; rewrite ?Hv, ?Hl; done. Qed.

Lemma thread_inv_idle g g' t :
  writing t = 0%nat → reading t = 0%nat →
  thread_inv P g t → thread_inv P g' t.
Proof. destruct t; cbn; done. Qed.

(** A goroutine that holds the lock for writing: the mutex says so. *)
Lemma sys_inv_writing g ts i t :
  sys_inv P (g, ts) → ts !! i = Some t → writing t = 1%nat →
  sync.writer (lock g) = true.
Proof.
  intros (Hw & _) Hi Ht. cbn [fst snd] in Hw.
  pose proof (sum_list_with_lookup_le writing ts i t Hi).
  destruct (sync.writer (lock g)); [done|lia].
Qed.

(** A goroutine that holds the lock for reading: no writer holds it. *)
Lemma sys_inv_reading g ts i t :
  sys_inv P (g, ts) → ts !! i = Some t → reading t = 1%nat →
  sync.writer (lock g) = false ∧ (0 < sync.readers (lock g))%nat.
Proof.
  intros (_ & Hr & Hwr & _) Hi Ht. cbn [fst snd] in Hr, Hwr.
  pose proof (sum_list_with_lookup_le reading ts i t Hi).
  split; [|lia]. destruct (sync.writer (lock g)); [|done].
  specialize (Hwr eq_refl). lia.
Qed.

(** The invariant after goroutine [i] has moved from [t] to [t'] and left
    the gauge [g']: either the stored pair is untouched, or [t] held the
    lock for writing. *)
Lemma sys_inv_step g ts i t g' t' :
  ts !! i = Some t → sys_inv P (g, ts) →
  ((if sync.writer (lock g') then 1 else 0) + writing t
   = (if sync.writer (lock g) then 1 else 0) + writing t')%nat →
  (sync.readers (lock g') + reading t = sync.readers (lock g) + reading t')%nat →
  (sync.writer (lock g') = true → sync.readers (lock g') = 0%nat) →
  (sync.writer (lock g') = false → P (val g', labels g')) →
  thread_inv P g' t' →
  (val g' = val g ∧ labels g' = labels g) ∨ writing t = 1%nat →
  sys_inv P (g', <[i := t']> ts).
Proof.
  intros Hi Hinv Hcw Hcr Hwr' HP' Ht' Hdata.
  pose proof Hinv as (Hw & Hr & Hwr & HP & Hts). cbn [fst snd] in *.
  pose proof (sum_list_with_insert writing ts i t t' Hi) as Hwi.
  pose proof (sum_list_with_insert reading ts i t t' Hi) as Hri.
  unfold sys_inv. cbn [fst snd].
  split; [lia|]. split; [lia|]. split; [exact Hwr'|]. split; [exact HP'|].
  apply Forall_lookup. intros j tj Hj.
  destruct (decide (j = i)) as [->|Hne].
  - rewrite list_lookup_insert_eq in Hj by (by eapply lookup_lt_Some).
    by injection Hj as <-.
  - rewrite list_lookup_insert_ne in Hj by done.
    pose proof (proj1 (Forall_lookup _ _) Hts j tj Hj) as Htj.
    destruct Hdata as [[Hv Hl]|Hwt].
    + by apply (thread_inv_same_data g).
    + pose proof (sys_inv_writing g ts i t Hinv Hi Hwt) as Hlocked.
      rewrite Hlocked in Hw. specialize (Hwr Hlocked).
      apply (thread_inv_idle g); [| |exact Htj].
      * apply (sum_list_with_only writing ts i j t tj); [done|lia|done|done].
      * apply (sum_list_with_zero reading ts j tj); [lia|done].
Qed.

(** Every step of every goroutine keeps the invariant, and no step ends
    the process. *)
Lemma sched_step_sys_inv i st :
  sys_inv P st →
  ∃ st', sched_step thread_step i st = Some st' ∧ sys_inv P st'.
Proof.
  destruct st as [g ts]. intros Hinv. unfold sched_step. cbn [fst snd].
  destruct (ts !! i) as [t|] eqn:Hi; [|by eexists].
  pose proof Hinv as (Hw & Hr & Hwr & HP & Hts). cbn [fst snd] in *.
  pose proof (proj1 (Forall_lookup _ _) Hts i t Hi) as Ht.
  destruct t as [v ls|v ls|v ls|v ls|v ls| | |value|value ls|value ls|value ls];
    cbn [thread_step thread_inv] in *.
  - unfold sync.Lock.
    destruct (sync.writer (lock g)) eqn:Ew; [by eexists|].
    destruct (sync.readers (lock g)) eqn:Er; [|by eexists].
    eexists. split; [done|].
    eapply sys_inv_step; [done|done|cbn; rewrite ?Ew, ?Er; try done..|by left].
    split; [done|]. by apply HP.
  - pose proof (sys_inv_writing g ts i _ Hinv Hi eq_refl) as Hlocked.
    eexists. split; [done|].
    eapply sys_inv_step; [done|done|cbn; try done..|by right].
    + intros Hfree. congruence.
    + by destruct Ht.
  - pose proof (sys_inv_writing g ts i _ Hinv Hi eq_refl) as Hlocked.
    eexists. split; [done|].
    eapply sys_inv_step; [done|done|cbn; try done..|by right].
    + intros Hfree. congruence.
    + by destruct Ht.
  - pose proof (sys_inv_writing g ts i _ Hinv Hi eq_refl) as Hlocked.
    unfold sync.Unlock. rewrite Hlocked.
    eexists. split; [done|].
    eapply sys_inv_step; [done|done|cbn; rewrite ?Hlocked; try done..|by left].
    + destruct Ht as (HPv & <- & <-). done.
    + by destruct Ht.
  - by eexists.
  - unfold sync.RLock.
    destruct (sync.writer (lock g)) eqn:Ew; [by eexists|].
    eexists. split; [done|].
    eapply sys_inv_step; [done|done|cbn; rewrite ?Ew; try done; try lia..|by left].
  - eexists. split; [done|].
    eapply sys_inv_step; [done|done|cbn; try done..|by left].
  - destruct (sys_inv_reading g ts i _ Hinv Hi eq_refl) as [Hfree Hpos].
    eexists. split; [done|].
    eapply sys_inv_step; [done|done|cbn; try done..|by left].
    subst value. by apply HP.
  - destruct (sys_inv_reading g ts i _ Hinv Hi eq_refl) as [Hfree Hpos].
    unfold sync.RUnlock.
    destruct (sync.readers (lock g)) as [|n] eqn:Er; [lia|].
    eexists. split; [done|].
    eapply sys_inv_step; [done|done|cbn; rewrite ?Er; try done; try lia..|by left].
    intros Hlocked. congruence.
  - eexists. split; [done|].
    eapply sys_inv_step; [done|done|cbn; try done..|by left].
  - by eexists.
Qed.

Lemma run_sys_inv schedule st :
  sys_inv P st →
  ∃ st', run thread_step schedule st = Some st' ∧ sys_inv P st'.
Proof.
  revert st. induction schedule as [|i schedule IH]; intros st Hinv.
  - by exists st.
  - destruct (sched_step_sys_inv i st Hinv) as (st1 & Hstep & Hinv1).
    destruct (IH st1 Hinv1) as (st' & Hrun & Hinv').
    exists st'. cbn [run]. by rewrite Hstep.
Qed.

End GaugeThreadsFacts.

Section GaugeThreadsStart.

Import GaugeThreads.

Lemma sum_list_with_initial (ts : list thread) :
  Forall initial ts →
  sum_list_with writing ts = 0%nat ∧ sum_list_with reading ts = 0%nat.
Proof.
  induction 1 as [|t ts Ht _ [IHw IHr]]; [done|].
  cbn [sum_list_with]. rewrite IHw, IHr. by destruct t.
Qed.

Lemma sys_inv_initial g0 ts0 :
  lock g0 = sync.unlocked → Forall initial ts0 →
  sys_inv (whole_pair g0 ts0) (g0, ts0).
Proof.
  intros Hl Hinit. destruct (sum_list_with_initial ts0 Hinit) as [Hw Hr].
  unfold sys_inv. cbn [fst snd]. rewrite Hl, Hw, Hr. cbn.
  split; [done|]. split; [done|]. split; [done|].
  split; [by left|].
  apply Forall_lookup. intros j t Hj.
  pose proof (proj1 (Forall_lookup _ _) Hinit j t Hj) as Ht.
  destruct t; cbn in Ht; try done. cbn. right. by exists j.
Qed.

(** A goroutine that runs [Set] alone does what [gauge_Set] does. *)
Lemma GaugeThreads_Set_alone g intVal decodedKey :
  lock g = sync.unlocked →
  run thread_step (replicate 4 0%nat) (g, [Set_call intVal decodedKey])
  = (λ g', (g', [SetReturned intVal (transformLabels decodedKey)]))
      <$> gauge_Set g intVal decodedKey.
Proof.
  intros Hl. rewrite (gauge_Set_unlocked g _ _ Hl).
  cbn. unfold sched_step. cbn. rewrite Hl. reflexivity.
Qed.

(** A run of the callback alone reports what [gauge_observer] reports. *)
Lemma GaugeThreads_observer_alone g :
  lock g = sync.unlocked →
  run thread_step (replicate 5 0%nat) (g, [observer_call])
  = (λ r, (r.1, [ObsReturned r.2.1 r.2.2])) <$> gauge_observer g.
Proof.
  intros Hl. rewrite (gauge_observer_unlocked g Hl).
  cbn. unfold sched_step. cbn. rewrite Hl. cbn.
  destruct g as [v ls l]. cbn in *. by subst l.
Qed.

End GaugeThreadsStart.

(** C6. Goroutines that call [Set] on a gauge and runs of its observer
    callback, interleaved in any way, from a gauge whose lock is free: the
    process never faults, and whenever a run of the callback has reported a
    pair, the pair is the one the gauge held at the start or the value and
    labels of one and the same [Set] call, never the value of one call with
    the labels of another. *)
Theorem gauge_observer_whole_pairs
    (g0 : gauge) (ts0 : list GaugeThreads.thread) (schedule : list nat) :
  lock g0 = sync.unlocked →
  Forall GaugeThreads.initial ts0 →
  ∃ g ts, run GaugeThreads.thread_step schedule (g0, ts0) = Some (g, ts) ∧
          ∀ i value ls,
            ts !! i = Some (GaugeThreads.ObsReturned value ls) →
            (value, ls) = (val g0, labels g0) ∨
            ∃ j, ts0 !! j = Some (GaugeThreads.SetLock value ls).
Proof.
  intros Hl Hinit.
  destruct (run_sys_inv (GaugeThreads.whole_pair g0 ts0) schedule (g0, ts0))
    as ([g ts] & Hrun & Hinv); [by apply sys_inv_initial|].
  exists g, ts. split; [exact Hrun|].
  intros i value ls Hi. destruct Hinv as (_ & _ & _ & _ & Hts).
  exact (proj1 (Forall_lookup _ _) Hts i _ Hi).
Qed.

Lemma gauge_observer_whole_pairs_witness :
  ∃ g ts, run GaugeThreads.thread_step [0; 1; 0; 0; 1; 0; 1; 1; 1; 1; 1]%nat
              (NewGauge, [GaugeThreads.Set_call 7 status_ok;
                          GaugeThreads.observer_call]) = Some (g, ts) ∧
          ∀ i value ls,
            ts !! i = Some (GaugeThreads.ObsReturned value ls) →
            (value, ls) = (val NewGauge, labels NewGauge) ∨
            ∃ j, [GaugeThreads.Set_call 7 status_ok; GaugeThreads.observer_call] !! j
                 = Some (GaugeThreads.SetLock value ls).
Proof.
  apply (gauge_observer_whole_pairs NewGauge
           [GaugeThreads.Set_call 7 status_ok; GaugeThreads.observer_call]
           [0; 1; 0; 0; 1; 0; 1; 1; 1; 1; 1]%nat).
  - reflexivity.
  - repeat constructor.
Defined.

(** A reader that asks for the lock while a writer holds it waits, and then
    reports the pair of that writer. *)
Example gauge_observer_after_writer :
  ∃ g, run GaugeThreads.thread_step [0; 1; 0; 1; 0; 0; 1; 1; 1; 1; 1]%nat
           (NewGauge, [GaugeThreads.Set_call 7 status_ok;
                       GaugeThreads.observer_call])
       = Some (g, [GaugeThreads.SetReturned 7 (transformLabels status_ok);
                   GaugeThreads.ObsReturned 7 (transformLabels status_ok)]).
Proof. eexists. vm_compute. reflexivity. Qed.

(** C9. On a gauge that has never been set the observer callback reports
    the value 0 with no labels, also when several runs of the callback
    interleave; and whatever the gauge holds, the callback reports the stored
    pair as it is and leaves it as it is. *)
Theorem gauge_observer_never_set :
  gauge_observer NewGauge = Some (NewGauge, (0, [])) ∧
  (∀ n schedule,
     ∃ g ts, run GaugeThreads.thread_step schedule
                 (NewGauge, replicate n GaugeThreads.observer_call) = Some (g, ts) ∧
             ∀ i value ls, ts !! i = Some (GaugeThreads.ObsReturned value ls) →
                           (value, ls) = (0, [])) ∧
  (∀ g g' p, gauge_observer g = Some (g', p) →
             p = (val g, labels g) ∧ val g' = val g ∧ labels g' = labels g).
Proof.
  split; [reflexivity|]. split; [|intros g g' p; apply gauge_observer_snapshot].
  intros n schedule.
  set (ts0 := replicate n GaugeThreads.observer_call).
  destruct (run_sys_inv (GaugeThreads.whole_pair NewGauge ts0) schedule (NewGauge, ts0))
    as ([g ts] & Hrun & Hinv).
  { apply sys_inv_initial; [done|]. subst ts0. by apply Forall_replicate. }
  exists g, ts. split; [exact Hrun|].
  intros i value ls Hi. destruct Hinv as (_ & _ & _ & _ & Hts).
  destruct (proj1 (Forall_lookup _ _) Hts i _ Hi) as [Hstart|[j Hj]]; [exact Hstart|].
  subst ts0. apply lookup_replicate in Hj as [Hj _]. discriminate Hj.
Qed.

(** * Further properties *)

(** ** Defaults of the options *)

(** X1. [initDefaults] leaves no field unset, keeps every field the caller
    has set, and applying it again changes nothing. *)
Theorem initDefaults_fills_and_keeps (p : PrometheusOpts) :
  Port (initDefaults p) ≠ 0 ∧
  MetricsPath (initDefaults p) ≠ "" ∧
  (Port p ≠ 0 → Port (initDefaults p) = Port p) ∧
  (MetricsPath p ≠ "" → MetricsPath (initDefaults p) = MetricsPath p) ∧
  initDefaults (initDefaults p) = initDefaults p.
Proof.
  destruct p as [port path]. unfold initDefaults. cbn [Port MetricsPath].
  destruct (decide (port = 0)) as [->|Hport];
    destruct (decide (path = "")) as [->|Hpath];
    cbn [Port MetricsPath]; repeat case_decide; repeat split; try done.
Qed.

(** ** Labels and attributes *)

Lemma transformLabels_fmap (m : LabelSet) :
  transformLabels m = (λ kv, attribute.String kv.1 kv.2) <$> m.
Proof.
  unfold transformLabels.
  assert (H : ∀ acc, foldl (λ labels '(k, v), labels ++ [attribute.String k v]) acc m
                     = acc ++ ((λ kv, attribute.String kv.1 kv.2) <$> m)).
  { induction m as [|[k v] m IH]; intros acc; cbn.
    - by rewrite app_nil_r.
    - rewrite IH, <- app_assoc. reflexivity. }
  apply (H []).
Qed.

(** X2. The attributes built from a label map, read back as pairs, are the
    entries of the map in the order of the iteration: no label is dropped,
    added, merged or changed. *)
Theorem transformLabels_round_trip (m : LabelSet) :
  pair_of_KeyValue <$> transformLabels m = m.
Proof.
  rewrite transformLabels_fmap, <- list_fmap_compose.
  induction m as [|[k v] m IH]; [done|]. cbn. by rewrite IH.
Qed.

(** X3. Two label maps that hold the same pairs give the same attributes up
    to order, and no attribute key occurs twice. *)
Theorem transformLabels_same_pairs (m1 m2 : LabelSet) :
  wf_labels m1 → wf_labels m2 → same_pairs m1 m2 →
  transformLabels m1 ≡ₚ transformLabels m2 ∧
  NoDup (attribute.Key <$> transformLabels m1).
Proof.
  intros Hwf1 Hwf2 Hsame. rewrite !transformLabels_fmap. split.
  - apply fmap_Permutation. by apply same_pairs_Permutation.
  - rewrite <- list_fmap_compose.
    replace (attribute.Key ∘ (λ kv : string * string, attribute.String kv.1 kv.2))
      with (fst : string * string → string); [exact Hwf1|].
    reflexivity.
Qed.

Lemma transformLabels_same_pairs_witness :
  transformLabels [("op", "push"); ("status", "ok")]%string
  ≡ₚ transformLabels [("status", "ok"); ("op", "push")]%string ∧
  NoDup (attribute.Key <$> transformLabels [("op", "push"); ("status", "ok")]%string).
Proof.
  apply transformLabels_same_pairs.
  - apply (bool_decide_unpack _). vm_compute. reflexivity.
  - apply (bool_decide_unpack _). vm_compute. reflexivity.
  - intros k v. rewrite !elem_of_cons, !elem_of_nil. tauto.
Defined.

(** ** The increment counter *)

Lemma incrementCounter_Increment_calls_counter (calls : list LabelSet) i :
  inc_counter (incrementCounter_Increment_calls i calls)
  = inc_counter i ++ ((λ m, (1, transformLabels m)) <$> calls).
Proof.
  unfold incrementCounter_Increment_calls. revert i.
  induction calls as [|m calls IH]; intros i; cbn [foldl fmap list_fmap].
  - by rewrite app_nil_r.
  - rewrite IH. unfold incrementCounter_Increment, metric.Add.
    cbn [inc_counter]. by rewrite <- app_assoc.
Qed.

(** X4. After any run of [Increment] calls on a new increment counter the
    backend has received one increment of 1 per call, in order, each under
    the attributes of its call; the increments add up to the number of
    calls. *)
Theorem incrementCounter_Increment_counts (calls : list LabelSet) :
  let i := incrementCounter_Increment_calls NewIncrementCounter calls in
  inc_counter i = (λ m, (1, transformLabels m)) <$> calls ∧
  metric.exact_total (inc_counter i) = Z.of_nat (length calls).
Proof.
  cbn zeta. rewrite incrementCounter_Increment_calls_counter.
  cbn [NewIncrementCounter inc_counter app]. split; [done|].
  unfold metric.exact_total, metric.deltas. rewrite <- list_fmap_compose.
  induction calls as [|m calls IH]; [done|].
  cbn [fmap list_fmap foldr length]. cbn [fmap list_fmap] in IH.
  rewrite IH. cbn. lia.
Qed.

(** ** The set counter, over any calls *)

Lemma map_sum_insert (m : gmap Z Z) (k v : Z) :
  map_fold (λ _ x acc, x + acc) 0 (<[k := v]> m)
  = map_fold (λ _ x acc, x + acc) 0 m - default 0 (m !! k) + v.
Proof.
  assert (Hins : ∀ (m' : gmap Z Z) x, m' !! k = None →
            map_fold (λ _ x acc, x + acc) 0 (<[k := x]> m')
            = x + map_fold (λ _ x acc, x + acc) 0 m').
  { intros m' x Hk.
    apply (map_fold_insert_L (λ (_ : Z) (x acc : Z), x + acc)); [|done].
    intros. lia. }
  destruct (m !! k) as [old|] eqn:Hk; cbn [default].
  - rewrite <- (insert_delete_eq m k v).
    rewrite <- (insert_delete_id m k old Hk) at 2.
    rewrite !Hins by apply lookup_delete_eq. unfold id. lia.
  - rewrite Hins by done. lia.
Qed.

Lemma Int64_sub_nonzero (a b : Z) :
  Int64.in_range a → Int64.in_range b → a ≠ b → Int64.sub a b ≠ 0.
Proof.
  unfold Int64.in_range, Int64.sub, Int64.wrap, Int64.min_signed,
    Int64.max_signed, Int64.modulus.
  intros Ha Hb Hne Hz.
  pose proof (Z.div_mod (a - b + 2 ^ 63) (2 ^ 64) ltac:(lia)) as Hdm.
  lia.
Qed.

Section SetCounterCalls.

Variable Hash : LabelSet → Z → hashstructure.result.

(** What [Set] does when it returns, with the key of its labels. *)
Lemma setCounter_Set_Returned c v m c' :
  setCounter_Set Hash c v m = Returned c' →
  ∃ k, Hash m hashstructure.FormatV2 = inl k ∧
       ((baseline c k = v ∧ c' = c) ∨
        (baseline c k ≠ v ∧
         c' = {| counter := metric.Add (counter c) (Int64.sub v (baseline c k))
                              (transformLabels m);
                 counterMap := <[k := v]> (counterMap c) |})).
Proof.
  unfold setCounter_Set, baseline.
  destruct (Hash m hashstructure.FormatV2) as [k|err]; [|discriminate].
  intros H. exists k. split; [done|].
  case_decide; injection H as <-; [by left|by right].
Qed.

(** A property kept by every call that returns is kept by a run of calls
    whose labels can be hashed, and the run returns. *)
Lemma setCounter_Set_calls_invariant
    (I : nat → setCounter → Prop) (Q : LabelSet * Z → Prop)
    (calls : list (LabelSet * Z)) (n : nat) (c : setCounter) :
  (∀ n c call c', Q call → I n c →
     setCounter_Set Hash c call.2 call.1 = Returned c' → I (S n) c') →
  Forall (λ call, (∃ k, Hash call.1 hashstructure.FormatV2 = inl k) ∧ Q call) calls →
  I n c →
  ∃ c', setCounter_Set_calls Hash c calls = Returned c' ∧
        I (n + length calls)%nat c'.
Proof.
  intros Hstep Hcalls. revert n c.
  induction Hcalls as [|[m v] calls [[k Hk] HQ] _ IH]; intros n c HI.
  - exists c. rewrite Nat.add_0_r. done.
  - cbn [setCounter_Set_calls].
    destruct (setCounter_Set_step Hash c v m k Hk) as (c1 & Hset & _).
    rewrite Hset.
    destruct (IH (S n) c1) as (c' & Hrun & HI').
    { by apply (Hstep n c (m, v) c1). }
    exists c'. split; [done|]. cbn [length].
    by replace (n + S (length calls))%nat with (S n + length calls)%nat by lia.
Qed.

Lemma setCounter_Set_balance c v m c' :
  setCounter_Set Hash c v m = Returned c' →
  Int64.wrap (metric.exact_total (counter c)) = Int64.wrap (recorded_total c) →
  Int64.wrap (metric.exact_total (counter c')) = Int64.wrap (recorded_total c').
Proof.
  intros Hset Hbal.
  destruct (setCounter_Set_Returned c v m c' Hset) as (k & _ & [[_ ->]|[_ ->]]);
    [done|].
  unfold recorded_total. cbn [counter counterMap].
  rewrite metric_exact_total_Add, map_sum_insert.
  fold (recorded_total c). fold (baseline c k).
  unfold Int64.sub. rewrite Int64_wrap_add_r, <- Int64_wrap_add_l, Hbal,
    Int64_wrap_add_l.
  f_equal. lia.
Qed.

End SetCounterCalls.

(** X5. After any run of [Set] calls on a new set counter, with any label
    sets, also ones that share a hash, the increments the backend has received
    add up (in [int64]) to the sum of the values recorded in [counterMap]. *)
Theorem setCounter_Set_backend_balance
    (Hash : LabelSet → Z → hashstructure.result) (calls : list (LabelSet * Z)) :
  Forall (λ call, ∃ k, Hash call.1 hashstructure.FormatV2 = inl k) calls →
  ∃ c', setCounter_Set_calls Hash NewSetCounter calls = Returned c' ∧
        metric.total (counter c') = Int64.wrap (recorded_total c').
Proof.
  intros Hcalls.
  destruct (setCounter_Set_calls_invariant Hash
              (λ _ c, Int64.wrap (metric.exact_total (counter c))
                      = Int64.wrap (recorded_total c))
              (λ _, True) calls 0%nat NewSetCounter) as (c' & Hrun & Hbal).
  - intros n c call c1 _ Hbal Hset. by eapply setCounter_Set_balance.
  - eapply Forall_impl; [exact Hcalls|]. intros call Hk. by split.
  - reflexivity.
  - exists c'. split; [exact Hrun|]. by rewrite metric_total_exact.
Qed.

Lemma setCounter_Set_backend_balance_witness :
  ∃ c', setCounter_Set_calls hashstructure.Hash NewSetCounter
          [(colliding_A, 5); (status_ok, 7); (colliding_B, 3); (status_ok, 2)]
        = Returned c' ∧
        metric.total (counter c') = Int64.wrap (recorded_total c').
Proof.
  apply (setCounter_Set_backend_balance hashstructure.Hash
           [(colliding_A, 5); (status_ok, 7); (colliding_B, 3); (status_ok, 2)]).
  repeat constructor; eexists; apply Hash_FormatV2.
Defined.

(** X6. A [Set] call that returns has recorded its value: the same call made
    again returns the instrument as it is, and sends nothing. *)
Theorem setCounter_Set_idempotent
    (Hash : LabelSet → Z → hashstructure.result)
    (c c' : setCounter) (v : Z) (m : LabelSet) :
  setCounter_Set Hash c v m = Returned c' →
  setCounter_Set Hash c' v m = Returned c'.
Proof.
  intros Hset.
  destruct (setCounter_Set_Returned Hash c v m c' Hset) as (k & Hk & [[Hb ->]|[_ ->]]).
  - by apply (setCounter_Set_same_value Hash c v m k).
  - apply (setCounter_Set_same_value Hash _ v m k Hk).
    unfold baseline. cbn [counterMap]. by rewrite lookup_insert_eq.
Qed.

Lemma setCounter_Set_idempotent_witness :
  setCounter_Set hashstructure.Hash
    {| counter := [(15, transformLabels status_ok)];
       counterMap := {[ 9644816166288475802 := 15 ]} |} 15 status_ok
  = Returned {| counter := [(15, transformLabels status_ok)];
                counterMap := {[ 9644816166288475802 := 15 ]} |}.
Proof.
  apply (setCounter_Set_idempotent hashstructure.Hash NewSetCounter _ 15 status_ok).
  vm_compute. reflexivity.
Defined.

(** X7. On a new set counter, a run of [Set] calls with [int64] values
    sends at most one increment per call and never the increment zero, and
    every recorded value is an [int64]. *)
Theorem setCounter_Set_no_zero_increment
    (Hash : LabelSet → Z → hashstructure.result) (calls : list (LabelSet * Z)) :
  Forall (λ call, (∃ k, Hash call.1 hashstructure.FormatV2 = inl k) ∧
                  Int64.in_range call.2) calls →
  ∃ c', setCounter_Set_calls Hash NewSetCounter calls = Returned c' ∧
        (length (counter c') ≤ length calls)%nat ∧
        (0 ∉ metric.deltas (counter c')) ∧
        map_Forall (λ _ v, Int64.in_range v) (counterMap c').
Proof.
  intros Hcalls.
  destruct (setCounter_Set_calls_invariant Hash
              (λ n c, (length (counter c) ≤ n)%nat ∧
                      (0 ∉ metric.deltas (counter c)) ∧
                      map_Forall (λ _ v, Int64.in_range v) (counterMap c))
              (λ call, Int64.in_range call.2) calls 0%nat NewSetCounter)
    as (c' & Hrun & Hinv).
  - intros n c [m v] c1 Hv (Hlen & Hnz & Hmap) Hset. cbn [fst snd] in *.
    destruct (setCounter_Set_Returned Hash c v m c1 Hset) as (k & _ & [[_ ->]|[Hne ->]]).
    { split; [lia|done]. }
    cbn [counter counterMap]. split; [|split].
    + unfold metric.Add. rewrite length_app. cbn. lia.
    + rewrite metric_deltas_Add. intros [Hin|Hin]%elem_of_app; [done|].
      apply list_elem_of_singleton in Hin. symmetry in Hin. revert Hin.
      apply Int64_sub_nonzero; [done| |done].
      unfold baseline. destruct (counterMap c !! k) as [old|] eqn:Hold; cbn.
      * by apply (Hmap k old).
      * unfold Int64.in_range, Int64.min_signed, Int64.max_signed. lia.
    + by apply map_Forall_insert_2.
  - exact Hcalls.
  - split; [done|]. split; [by intros ?%elem_of_nil|]. apply map_Forall_empty.
  - exists c'. by split.
Qed.

Lemma setCounter_Set_no_zero_increment_witness :
  ∃ c', setCounter_Set_calls hashstructure.Hash NewSetCounter
          [(status_ok, 10); (status_ok, 10); (colliding_A, 0); (status_ok, 4)]
        = Returned c' ∧
        (length (counter c')
         ≤ length [(status_ok, 10); (status_ok, 10); (colliding_A, 0); (status_ok, 4)])%nat ∧
        (0 ∉ metric.deltas (counter c')) ∧
        map_Forall (λ _ v, Int64.in_range v) (counterMap c').
Proof.
  apply (setCounter_Set_no_zero_increment hashstructure.Hash
           [(status_ok, 10); (status_ok, 10); (colliding_A, 0); (status_ok, 4)]).
  repeat constructor; try (eexists; apply Hash_FormatV2);
    vm_compute; intros H; discriminate H.
Defined.

(** X8. For values from zero up to the largest [int64], set one after the
    other under one label set on a set counter that has recorded nothing for
    it, no subtraction wraps: the increments sent add up, exactly, to the
    last value set. *)
Theorem setCounter_Set_exact_sum
    (Hash : LabelSet → Z → hashstructure.result)
    (c : setCounter) (labels : LabelSet) (keyHash : Z) (vs : list Z) :
  Hash labels hashstructure.FormatV2 = inl keyHash →
  Forall (λ v, 0 <= v <= Int64.max_signed) vs →
  baseline c keyHash = 0 →
  ∃ c' new,
    setCounter_Set_calls Hash c ((λ v, (labels, v)) <$> vs) = Returned c' ∧
    counter c' = counter c ++ new ∧
    metric.exact_total new = default 0 (last vs).
Proof.
  intros HH Hvs Hzero.
  destruct (setCounter_Set_calls_exact_sum Hash vs c labels keyHash HH Hvs)
    as (c' & new & Hrun & Hc & Hsum).
  { rewrite Hzero. unfold Int64.max_signed. lia. }
  exists c', new. split; [exact Hrun|]. split; [exact Hc|].
  rewrite Hzero in Hsum. unfold metric.exact_total, metric.deltas. lia.
Qed.

Lemma setCounter_Set_exact_sum_witness :
  ∃ c' new,
    setCounter_Set_calls hashstructure.Hash NewSetCounter
      ((λ v, (status_ok, v)) <$> [10; 4; 4; 25]) = Returned c' ∧
    counter c' = counter NewSetCounter ++ new ∧
    metric.exact_total new = default 0 (last [10; 4; 4; 25]).
Proof.
  apply (setCounter_Set_exact_sum hashstructure.Hash NewSetCounter status_ok
           9644816166288475802 [10; 4; 4; 25]).
  - vm_compute. reflexivity.
  - repeat constructor; vm_compute; intros H; discriminate H.
  - reflexivity.
Defined.

(** ** The gauge: round trip, exclusion and progress *)

(** X9. On a gauge whose lock is free, [Set] returns with the lock free
    again, and the observer callback then reports the value and the
    attributes of that call, whatever the gauge held before. *)
Theorem gauge_Set_then_observe (g : gauge) (intVal : Z) (decodedKey : LabelSet) :
  lock g = sync.unlocked →
  ∃ g', gauge_Set g intVal decodedKey = Some g' ∧
        lock g' = sync.unlocked ∧
        gauge_observer g' = Some (g', (intVal, transformLabels decodedKey)).
Proof.
  intros Hl. eexists. split; [by apply gauge_Set_unlocked|].
  split; [done|]. by rewrite gauge_observer_unlocked.
Qed.

Lemma gauge_Set_then_observe_witness :
  ∃ g', gauge_Set {| val := 3; labels := transformLabels status_ok;
                     lock := sync.unlocked |} 9 [("op", "push")]%string = Some g' ∧
        lock g' = sync.unlocked ∧
        gauge_observer g' = Some (g', (9, transformLabels [("op", "push")]%string)).
Proof.
  apply (gauge_Set_then_observe
           {| val := 3; labels := transformLabels status_ok; lock := sync.unlocked |}
           9 [("op", "push")]%string).
  reflexivity.
Defined.

Section Schedules.

Context {T S : Type} (thread_step : T → S → step T S).

Lemma run_app (s1 s2 : list nat) (st : S * list T) :
  run thread_step (s1 ++ s2) st
  = match run thread_step s1 st with
    | Some st' => run thread_step s2 st'
    | None => None
    end.
Proof.
  revert st. induction s1 as [|i s1 IH]; intros st; [done|].
  cbn [app run]. destruct (sched_step thread_step i st); [apply IH|done].
Qed.

Lemma sched_step_Next (i : nat) (s : S) (ts : list T) (t t' : T) (s' : S) :
  ts !! i = Some t → thread_step t s = Next t' s' →
  sched_step thread_step i (s, ts) = Some (s', <[i := t']> ts).
Proof. intros Hi Hstep. unfold sched_step. cbn [fst snd]. by rewrite Hi, Hstep. Qed.

End Schedules.

Lemma sum_list_with_pos_exists {A : Type} (f : A → nat) (l : list A) :
  (0 < sum_list_with f l)%nat → ∃ i x, l !! i = Some x ∧ (0 < f x)%nat.
Proof.
  induction l as [|a l IH]; cbn [sum_list_with]; [lia|]. intros Hpos.
  destruct (decide (0 < f a)%nat) as [Ha|Ha].
  - by exists 0%nat, a.
  - destruct IH as (i & x & Hi & Hx); [lia|]. by exists (S i), x.
Qed.

Section GaugeSchedulesFacts.

Import GaugeThreads GaugeSchedules.

Variable P : Z * list attribute.KeyValue → Prop.

Lemma returned_remaining t : returned t = true ↔ remaining t = 0%nat.
Proof. by destruct t. Qed.

Lemma thread_step_remaining t g t' g' :
  thread_step t g = Next t' g' → remaining t = S (remaining t').
Proof.
  destruct t; cbn [thread_step]; intros H;
    repeat match type of H with
           | match ?x with _ => _ end = _ => destruct x
           end;
    try discriminate H; by injection H as <- <-.
Qed.

Lemma returned_not_holding ts :
  Forall (λ t, returned t = true) ts →
  sum_list_with writing ts = 0%nat ∧ sum_list_with reading ts = 0%nat.
Proof.
  induction 1 as [|t ts Ht _ [IHw IHr]]; [done|].
  cbn [sum_list_with]. rewrite IHw, IHr. by destruct t.
Qed.

(** While a goroutine has not returned, one of them can run. *)
Lemma sys_inv_progress g ts :
  sys_inv P (g, ts) →
  (∃ i t, ts !! i = Some t ∧ returned t = false) →
  ∃ i t, ts !! i = Some t ∧ can_step t g.
Proof.
  intros (Hw & Hr & Hwr & _) (i & t & Hi & Ht). cbn [fst snd] in *.
  unfold can_step.
  destruct (sync.writer (lock g)) eqn:Ew.
  - destruct (sum_list_with_pos_exists writing ts) as (j & tj & Hj & Hpos); [lia|].
    exists j, tj. split; [done|].
    destruct tj; cbn in Hpos; try lia; cbn [thread_step]; eauto.
    unfold sync.Unlock. rewrite Ew. eauto.
  - destruct (sync.readers (lock g)) as [|n] eqn:Er.
    + exists i, t. split; [done|].
      pose proof (sum_list_with_lookup_le writing ts i t Hi) as Hwt.
      pose proof (sum_list_with_lookup_le reading ts i t Hi) as Hrt.
      destruct t; cbn in Ht, Hwt, Hrt; try discriminate Ht; try lia;
        cbn [thread_step]; eauto.
      * unfold sync.Lock. rewrite Ew, Er. eauto.
      * unfold sync.RLock. rewrite Ew. eauto.
    + destruct (sum_list_with_pos_exists reading ts) as (j & tj & Hj & Hpos); [lia|].
      exists j, tj. split; [done|].
      destruct tj; cbn in Hpos; try lia; cbn [thread_step]; eauto.
      unfold sync.RUnlock. rewrite Er. eauto.
Qed.

(** From a state that keeps the invariant the goroutines can all be run to
    their return. *)
Lemma sys_inv_completion (n : nat) (st : gauge * list thread) :
  sys_inv P st → sum_list_with remaining st.2 = n →
  ∃ schedule st', run thread_step schedule st = Some st' ∧
                  sys_inv P st' ∧
                  length schedule = n ∧
                  Forall (λ t, returned t = true) st'.2.
Proof.
  revert st. induction n as [|n IH]; intros [g ts] Hinv Hsum; cbn [fst snd] in *.
  - exists [], (g, ts). split; [done|]. split; [done|]. split; [done|].
    apply Forall_lookup. intros i t Hi. apply returned_remaining.
    pose proof (sum_list_with_lookup_le remaining ts i t Hi). lia.
  - destruct (sum_list_with_pos_exists remaining ts) as (i0 & t0 & Hi0 & Hpos0); [lia|].
    destruct (sys_inv_progress g ts Hinv) as (i & t & Hi & t' & g' & Hstep).
    { exists i0, t0. split; [done|]. destruct (returned t0) eqn:Hret; [|done].
      apply returned_remaining in Hret. lia. }
    pose proof (sched_step_Next thread_step i g ts t t' g' Hi Hstep) as Hsched.
    destruct (sched_step_sys_inv P i (g, ts) Hinv) as (st1 & Hsched1 & Hinv1).
    rewrite Hsched in Hsched1. injection Hsched1 as <-.
    destruct (IH (g', <[i := t']> ts) Hinv1) as (schedule & st' & Hrun & Hinv' & Hlen & Hall).
    { cbn [snd]. pose proof (sum_list_with_insert remaining ts i t t' Hi).
      pose proof (thread_step_remaining t g t' g' Hstep). lia. }
    exists (i :: schedule), st'. cbn [run length]. rewrite Hsched.
    split; [done|]. split; [done|]. split; [lia|done].
Qed.

End GaugeSchedulesFacts.

(** X10. Mutual exclusion on a gauge: however the [Set] calls and the runs
    of the observer callback interleave, while one goroutine is between [Lock]
    and [Unlock] no other goroutine is between [Lock] and [Unlock] or between
    [RLock] and [RUnlock]. *)
Theorem gauge_mutual_exclusion
    (g0 : gauge) (ts0 : list GaugeThreads.thread) (schedule : list nat) :
  lock g0 = sync.unlocked →
  Forall GaugeThreads.initial ts0 →
  ∃ g ts, run GaugeThreads.thread_step schedule (g0, ts0) = Some (g, ts) ∧
          ∀ i j ti tj, i ≠ j → ts !! i = Some ti → ts !! j = Some tj →
                       GaugeThreads.writing ti = 1%nat →
                       GaugeThreads.writing tj = 0%nat ∧
                       GaugeThreads.reading tj = 0%nat.
Proof.
  intros Hl Hinit.
  destruct (run_sys_inv (GaugeThreads.whole_pair g0 ts0) schedule (g0, ts0))
    as ([g ts] & Hrun & Hinv); [by apply sys_inv_initial|].
  exists g, ts. split; [exact Hrun|].
  intros i j ti tj Hne Hi Hj Hwi.
  pose proof (sys_inv_writing _ g ts i ti Hinv Hi Hwi) as Hlocked.
  destruct Hinv as (Hw & Hr & Hwr & _). cbn [fst snd] in *.
  rewrite Hlocked in Hw. specialize (Hwr Hlocked). split.
  - apply (sum_list_with_only GaugeThreads.writing ts i j ti tj); [done|lia|done|done].
  - apply (sum_list_with_zero GaugeThreads.reading ts j tj); [lia|done].
Qed.

Lemma gauge_mutual_exclusion_witness :
  ∃ g ts, run GaugeThreads.thread_step [0; 1; 2; 0; 2; 1]%nat
              (NewGauge, [GaugeThreads.Set_call 7 status_ok;
                          GaugeThreads.observer_call;
                          GaugeThreads.Set_call 8 status_ok]) = Some (g, ts) ∧
          ∀ i j ti tj, i ≠ j → ts !! i = Some ti → ts !! j = Some tj →
                       GaugeThreads.writing ti = 1%nat →
                       GaugeThreads.writing tj = 0%nat ∧
                       GaugeThreads.reading tj = 0%nat.
Proof.
  apply (gauge_mutual_exclusion NewGauge
           [GaugeThreads.Set_call 7 status_ok; GaugeThreads.observer_call;
            GaugeThreads.Set_call 8 status_ok] [0; 1; 2; 0; 2; 1]%nat).
  - reflexivity.
  - repeat constructor.
Defined.

(** X11. No deadlock on a gauge: however the calls interleave, as long as
    some goroutine has not returned from its call, some goroutine can run its
    next statement. *)
Theorem gauge_no_deadlock
    (g0 : gauge) (ts0 : list GaugeThreads.thread) (schedule : list nat) :
  lock g0 = sync.unlocked →
  Forall GaugeThreads.initial ts0 →
  ∃ g ts, run GaugeThreads.thread_step schedule (g0, ts0) = Some (g, ts) ∧
          ((∃ i t, ts !! i = Some t ∧ GaugeSchedules.returned t = false) →
           ∃ i t, ts !! i = Some t ∧ GaugeSchedules.can_step t g).
Proof.
  intros Hl Hinit.
  destruct (run_sys_inv (GaugeThreads.whole_pair g0 ts0) schedule (g0, ts0))
    as ([g ts] & Hrun & Hinv); [by apply sys_inv_initial|].
  exists g, ts. split; [exact Hrun|]. exact (sys_inv_progress _ g ts Hinv).
Qed.

Lemma gauge_no_deadlock_witness :
  ∃ g ts, run GaugeThreads.thread_step [0; 1; 1; 0]%nat
              (NewGauge, [GaugeThreads.Set_call 7 status_ok;
                          GaugeThreads.observer_call]) = Some (g, ts) ∧
          ((∃ i t, ts !! i = Some t ∧ GaugeSchedules.returned t = false) →
           ∃ i t, ts !! i = Some t ∧ GaugeSchedules.can_step t g).
Proof.
  apply (gauge_no_deadlock NewGauge
           [GaugeThreads.Set_call 7 status_ok; GaugeThreads.observer_call]
           [0; 1; 1; 0]%nat).
  - reflexivity.
  - repeat constructor.
Defined.

(** X12. Every interleaving of [Set] calls and observer runs on a gauge can
    be continued until all of them have returned; the continuation runs
    exactly the statements that were left. *)
Theorem gauge_calls_complete
    (g0 : gauge) (ts0 : list GaugeThreads.thread) (schedule : list nat) :
  lock g0 = sync.unlocked →
  Forall GaugeThreads.initial ts0 →
  ∃ g ts rest g' ts',
    run GaugeThreads.thread_step schedule (g0, ts0) = Some (g, ts) ∧
    run GaugeThreads.thread_step (schedule ++ rest) (g0, ts0) = Some (g', ts') ∧
    length rest = sum_list_with GaugeSchedules.remaining ts ∧
    Forall (λ t, GaugeSchedules.returned t = true) ts'.
Proof.
  intros Hl Hinit.
  destruct (run_sys_inv (GaugeThreads.whole_pair g0 ts0) schedule (g0, ts0))
    as ([g ts] & Hrun & Hinv); [by apply sys_inv_initial|].
  destruct (sys_inv_completion _ _ (g, ts) Hinv eq_refl)
    as (rest & [g' ts'] & Hrest & _ & Hlen & Hall).
  exists g, ts, rest, g', ts'. split; [exact Hrun|].
  rewrite run_app, Hrun. done.
Qed.

Lemma gauge_calls_complete_witness :
  ∃ g ts rest g' ts',
    run GaugeThreads.thread_step [0; 1; 0]%nat
      (NewGauge, [GaugeThreads.Set_call 7 status_ok; GaugeThreads.observer_call])
    = Some (g, ts) ∧
    run GaugeThreads.thread_step ([0; 1; 0]%nat ++ rest)
      (NewGauge, [GaugeThreads.Set_call 7 status_ok; GaugeThreads.observer_call])
    = Some (g', ts') ∧
    length rest = sum_list_with GaugeSchedules.remaining ts ∧
    Forall (λ t, GaugeSchedules.returned t = true) ts'.
Proof.
  apply (gauge_calls_complete NewGauge
           [GaugeThreads.Set_call 7 status_ok; GaugeThreads.observer_call]
           [0; 1; 0]%nat).
  - reflexivity.
  - repeat constructor.
Defined.

(** X13. Whenever all the calls on a gauge have returned, in whatever way
    they interleaved, the lock is free and the gauge holds the pair it had at
    the start or the value and labels of one [Set] call. *)
Theorem gauge_calls_returned
    (g0 : gauge) (ts0 : list GaugeThreads.thread) (schedule : list nat) :
  lock g0 = sync.unlocked →
  Forall GaugeThreads.initial ts0 →
  ∃ g ts, run GaugeThreads.thread_step schedule (g0, ts0) = Some (g, ts) ∧
          length ts = length ts0 ∧
          (Forall (λ t, GaugeSchedules.returned t = true) ts →
           lock g = sync.unlocked ∧
           ((val g, labels g) = (val g0, labels g0) ∨
            ∃ j, ts0 !! j = Some (GaugeThreads.SetLock (val g) (labels g)))).
Proof.
  intros Hl Hinit.
  destruct (run_sys_inv (λ st, GaugeThreads.whole_pair g0 ts0 st) schedule (g0, ts0))
    as ([g ts] & Hrun & Hinv); [by apply sys_inv_initial|].
  exists g, ts. split; [exact Hrun|]. split.
  - clear Hinv. revert Hrun. generalize g0 at 1. generalize ts0.
    induction schedule as [|i schedule IH]; intros ts1 g1 Hrun.
    + by injection Hrun as <- <-.
    + cbn [run] in Hrun. unfold sched_step in Hrun. cbn [fst snd] in Hrun.
      destruct (ts1 !! i) as [t|]; [|by apply IH in Hrun].
      destruct (GaugeThreads.thread_step t g1) as [t' g'| |];
        [|by apply IH in Hrun|done].
      apply IH in Hrun. by rewrite length_insert in Hrun.
  - intros Hall. destruct (returned_not_holding ts Hall) as [Hw0 Hr0].
    destruct Hinv as (Hw & Hr & _ & HP & _). cbn [fst snd] in *.
    assert (Hfree : sync.writer (lock g) = false).
    { destruct (sync.writer (lock g)); [lia|done]. }
    split; [|by apply HP].
    destruct (lock g) as [w r]. cbn in *. unfold sync.unlocked. congruence.
Qed.

Lemma gauge_calls_returned_witness :
  ∃ g ts, run GaugeThreads.thread_step [0; 1; 0; 0; 1; 0; 1; 1; 1; 1; 1]%nat
              (NewGauge, [GaugeThreads.Set_call 7 status_ok;
                          GaugeThreads.observer_call]) = Some (g, ts) ∧
          length ts = length [GaugeThreads.Set_call 7 status_ok;
                              GaugeThreads.observer_call] ∧
          (Forall (λ t, GaugeSchedules.returned t = true) ts →
           lock g = sync.unlocked ∧
           ((val g, labels g) = (val NewGauge, labels NewGauge) ∨
            ∃ j, [GaugeThreads.Set_call 7 status_ok; GaugeThreads.observer_call] !! j
                 = Some (GaugeThreads.SetLock (val g) (labels g)))).
Proof.
  apply (gauge_calls_returned NewGauge
           [GaugeThreads.Set_call 7 status_ok; GaugeThreads.observer_call]
           [0; 1; 0; 0; 1; 0; 1; 1; 1; 1; 1]%nat).
  - reflexivity.
  - repeat constructor.
Defined.

(** ** Set calls that do not overlap *)

Section SerialSchedules.

Import SetCounterThreads SetCounterSchedules.

Variable Hash : LabelSet → Z → hashstructure.result.

Lemma sched_step_middle {T S : Type} (thread_step : T → S → step T S)
    (pre post : list T) (t : T) (s : S) :
  sched_step thread_step (length pre) (s, pre ++ t :: post)
  = match thread_step t s with
    | Next t' s' => Some (s', pre ++ t' :: post)
    | Stay => Some (s, pre ++ t :: post)
    | Crash => None
    end.
Proof.
  unfold sched_step. cbn [fst snd].
  rewrite list_lookup_middle by done.
  destruct (thread_step t s) as [t' s'| |]; [|done|done].
  rewrite insert_app_r_alt by done. by rewrite Nat.sub_diag.
Qed.

(** A goroutine that runs its five statements without another one in
    between does what [Set] does, and leaves the others where they are. *)
Lemma SetCounterThreads_alone_among c intVal decodedKey pre post :
  run (thread_step Hash) (replicate 5 (length pre))
      (c, pre ++ SetHash intVal decodedKey :: post)
  = match setCounter_Set Hash c intVal decodedKey with
    | Returned c' => Some (c', pre ++ SetReturned :: post)
    | _ => None
    end.
Proof.
  unfold setCounter_Set. cbn [replicate run].
  rewrite sched_step_middle. cbn [thread_step].
  destruct (Hash decodedKey hashstructure.FormatV2) as [keyHash|err]; [|done].
  rewrite sched_step_middle. cbn [thread_step].
  rewrite sched_step_middle. cbn [thread_step].
  case_decide.
  - rewrite sched_step_middle. cbn [thread_step].
    rewrite sched_step_middle. done.
  - rewrite sched_step_middle. cbn [thread_step].
    rewrite sched_step_middle. cbn [thread_step]. by destruct c.
Qed.

Lemma serial_run (calls : list (LabelSet * Z)) (pre : list thread) (c : setCounter) :
  run (thread_step Hash) (serial (length pre) (length calls))
      (c, pre ++ calls_threads calls)
  = match setCounter_Set_calls Hash c calls with
    | Returned c' => Some (c', pre ++ replicate (length calls) SetReturned)
    | _ => None
    end.
Proof.
  revert pre c. induction calls as [|[m v] calls IH]; intros pre c; [done|].
  cbn [length serial calls_threads fmap list_fmap setCounter_Set_calls fst snd].
  rewrite run_app, SetCounterThreads_alone_among.
  destruct (setCounter_Set Hash c v m) as [c1|msg|msg]; [|done|done].
  specialize (IH (pre ++ [SetReturned]) c1).
  rewrite length_app, Nat.add_1_r, <- app_assoc in IH. cbn [app] in IH.
  unfold calls_threads in IH. rewrite IH.
  destruct (setCounter_Set_calls Hash c1 calls); [|done|done].
  by rewrite <- app_assoc.
Qed.

End SerialSchedules.

(** The two embeddings of [Set] agree: goroutines that run their
    statements one goroutine after the other leave the counter as
    [setCounter_Set_calls] does. *)
Lemma setCounter_Set_serial_goroutines
    (Hash : LabelSet → Z → hashstructure.result)
    (c : setCounter) (calls : list (LabelSet * Z)) :
  run (SetCounterThreads.thread_step Hash)
      (SetCounterSchedules.serial 0 (length calls))
      (c, SetCounterSchedules.calls_threads calls)
  = match setCounter_Set_calls Hash c calls with
    | Returned c' =>
        Some (c', replicate (length calls) SetCounterThreads.SetReturned)
    | _ => None
    end.
Proof. exact (serial_run Hash calls [] c). Qed.

(** ** The provider, whatever the host *)



(** ** The push command *)

Section PushFacts.

Import push.

Variables (w : World) (opts : GeneralOptions) (ref : string).

Lemma push_cases :
  (∃ e, NewOCI_error w (OCIStorageDir opts) = Some e ∧
        push w opts ref
        = ([InfoPrintfln "Pushing eBPF image %s" ref; NewOCI (OCIStorageDir opts)],
           Some e)) ∨
  (∃ e, NewOCI_error w (OCIStorageDir opts) = None ∧
        NewRegistry_error w = Some e ∧
        push w opts ref
        = ([InfoPrintfln "Pushing eBPF image %s" ref; NewOCI (OCIStorageDir opts);
            NewRegistry], Some e)) ∨
  (∃ e, NewOCI_error w (OCIStorageDir opts) = None ∧
        NewRegistry_error w = None ∧ Copy_error w ref = Some e ∧
        push w opts ref
        = ([InfoPrintfln "Pushing eBPF image %s" ref; NewOCI (OCIStorageDir opts);
            NewRegistry; SpinnerStart "Pushing image %s to remote registry" ref;
            Copy ref ""; SpinnerUpdateText ("Failed to push image " +:+ ref);
            SpinnerFail], Some e)) ∨
  (NewOCI_error w (OCIStorageDir opts) = None ∧
   NewRegistry_error w = None ∧ Copy_error w ref = None ∧
   push w opts ref
   = ([InfoPrintfln "Pushing eBPF image %s" ref; NewOCI (OCIStorageDir opts);
       NewRegistry; SpinnerStart "Pushing image %s to remote registry" ref;
       Copy ref ""; SpinnerSuccess], None)).
Proof.
  unfold push.
  destruct (NewOCI_error w (OCIStorageDir opts)) as [e1|]; [left; eauto|].
  destruct (NewRegistry_error w) as [e2|]; [right; left; eauto|].
  destruct (Copy_error w ref) as [e3|].
  - right; right; left. exists e3. done.
  - right; right; right. done.
Qed.

End PushFacts.

(** X17. [push] returns nil exactly when the local store, the remote registry
    and the copy all succeed; an error it returns is the error of the step
    that failed, as that step gave it. *)
Theorem push_error (w : push.World) (opts : push.GeneralOptions) (ref : string) :
  ((push.push w opts ref).2 = None ↔
   push.NewOCI_error w (push.OCIStorageDir opts) = None ∧
   push.NewRegistry_error w = None ∧
   push.Copy_error w ref = None) ∧
  (∀ e, (push.push w opts ref).2 = Some e →
        push.NewOCI_error w (push.OCIStorageDir opts) = Some e ∨
        (push.NewOCI_error w (push.OCIStorageDir opts) = None ∧
         push.NewRegistry_error w = Some e) ∨
        (push.NewOCI_error w (push.OCIStorageDir opts) = None ∧
         push.NewRegistry_error w = None ∧
         push.Copy_error w ref = Some e)).
Proof.
  destruct (push_cases w opts ref)
    as [(e & H1 & ->)|[(e & H1 & H2 & ->)|[(e & H1 & H2 & H3 & ->)|(H1 & H2 & H3 & ->)]]];
    cbn [snd]; rewrite ?H1, ?H2, ?H3; split;
    intuition (try congruence; try discriminate).
Qed.

(** X18. [push] opens the local store first, builds the remote registry only
    when the store is open, and copies only when both exist, the reference
    being copied under its own name and nothing else. *)
Theorem push_steps_guarded (w : push.World) (opts : push.GeneralOptions) (ref : string) :
  let trace := (push.push w opts ref).1 in
  take 2 trace = [push.InfoPrintfln "Pushing eBPF image %s" ref;
                  push.NewOCI (push.OCIStorageDir opts)] ∧
  (push.NewRegistry ∈ trace ↔
   push.NewOCI_error w (push.OCIStorageDir opts) = None) ∧
  (∀ r dst, push.Copy r dst ∈ trace ↔
            r = ref ∧ dst = "" ∧
            push.NewOCI_error w (push.OCIStorageDir opts) = None ∧
            push.NewRegistry_error w = None).
Proof.
  cbn zeta.
  destruct (push_cases w opts ref)
    as [(e & H1 & ->)|[(e & H1 & H2 & ->)|[(e & H1 & H2 & H3 & ->)|(H1 & H2 & H3 & ->)]]];
    cbn [fst take]; rewrite ?H1, ?H2, ?H3;
    (split; [done|]); split; try intros r dst;
    rewrite ?elem_of_cons, ?elem_of_nil; intuition (try congruence; try discriminate);
    try (destruct_and?; simplify_eq; done).
Qed.

(** X19. The spinner of [push] is started only for the copy and always
    ended: it ends with success exactly when [push] returns nil, with failure
    exactly when the copy fails, and the end is the last thing [push] does. *)
Theorem push_spinner (w : push.World) (opts : push.GeneralOptions) (ref : string) :
  let trace := (push.push w opts ref).1 in
  (push.SpinnerSuccess ∈ trace ↔ (push.push w opts ref).2 = None) ∧
  (push.SpinnerFail ∈ trace ↔
   push.NewOCI_error w (push.OCIStorageDir opts) = None ∧
   push.NewRegistry_error w = None ∧
   push.Copy_error w ref ≠ None) ∧
  (∀ format arg, push.SpinnerStart format arg ∈ trace →
                 push.Copy ref "" ∈ trace ∧
                 (last trace = Some push.SpinnerSuccess ∨
                  last trace = Some push.SpinnerFail)).
Proof.
  cbn zeta.
  destruct (push_cases w opts ref)
    as [(e & H1 & ->)|[(e & H1 & H2 & ->)|[(e & H1 & H2 & H3 & ->)|(H1 & H2 & H3 & ->)]]];
    cbn [fst snd last]; rewrite ?H1, ?H2, ?H3;
    split; [| split | | split | | split | | split]; try intros format arg;
    rewrite ?elem_of_cons, ?elem_of_nil; intuition (try congruence; try discriminate);
    try (destruct_and?; simplify_eq; done).
Qed.

(** X20. The command never reads an argument that is not there: with one
    argument it pushes that argument, with any other number it returns the
    error of the argument check and does nothing. *)
Theorem push_Command_arguments
    (w : push.World) (opts : push.GeneralOptions) (args : list string) :
  ∃ r, push.Command w opts args = Returned r ∧
       (∀ ref, args = [ref] → r = push.push w opts ref) ∧
       (length args ≠ 1%nat →
        r = ([], Some (push.ExactArgs_error w (length args)))).
Proof.
  unfold push.Command. case_decide as Hlen.
  - destruct args as [|ref [|? ?]]; try done.
    exists (push.push w opts ref). split; [done|]. split; [|done].
    intros ref' Href. by injection Href as <-.
  - eexists. split; [done|]. split; [|done].
    intros ref ->. done.
Qed.

(** ** What [counterMap] holds *)

(** X21. On a new set counter, [counterMap] gets at most one entry per
    call, and only under keys that are the hash of the labels of a call: the
    map grows with the label sets in use, not with the calls on them. *)
Theorem setCounter_Set_counterMap_keys
    (Hash : LabelSet → Z → hashstructure.result) (calls : list (LabelSet * Z)) :
  Forall (λ call, ∃ k, Hash call.1 hashstructure.FormatV2 = inl k) calls →
  ∃ c', setCounter_Set_calls Hash NewSetCounter calls = Returned c' ∧
        (size (counterMap c') ≤ length calls)%nat ∧
        ∀ k, is_Some (counterMap c' !! k) →
             ∃ call, call ∈ calls ∧ Hash call.1 hashstructure.FormatV2 = inl k.
Proof.
  intros Hcalls.
  destruct (setCounter_Set_calls_invariant Hash
              (λ n c, (size (counterMap c) ≤ n)%nat ∧
                      ∀ k, is_Some (counterMap c !! k) →
                           ∃ call, call ∈ calls ∧
                                   Hash call.1 hashstructure.FormatV2 = inl k)
              (λ call, call ∈ calls) calls 0%nat NewSetCounter)
    as (c' & Hrun & Hinv).
  - intros n c [m v] c1 Hin (Hsize & Hkeys) Hset. cbn [fst snd] in *.
    destruct (setCounter_Set_Returned Hash c v m c1 Hset) as (k & Hk & [[_ ->]|[_ ->]]).
    { split; [lia|done]. }
    cbn [counterMap]. split.
    + rewrite map_size_insert. destruct (counterMap c !! k); cbn; lia.
    + intros k' [->|[_ Hsome]]%lookup_insert_is_Some; [|by apply Hkeys].
      by exists (m, v).
  - apply Forall_forall. intros call Hin. split; [|done].
    by apply (proj1 (Forall_forall _ _) Hcalls).
  - split; [done|]. intros k [x Hx]. cbn [NewSetCounter counterMap] in Hx.
    by rewrite lookup_empty in Hx.
  - exists c'. by split.
Qed.

Lemma setCounter_Set_counterMap_keys_witness :
  ∃ c', setCounter_Set_calls hashstructure.Hash NewSetCounter
          [(status_ok, 10); (status_ok, 12); (colliding_A, 0)] = Returned c' ∧
        (size (counterMap c')
         ≤ length [(status_ok, 10); (status_ok, 12); (colliding_A, 0)])%nat ∧
        ∀ k, is_Some (counterMap c' !! k) →
             ∃ call, call ∈ [(status_ok, 10); (status_ok, 12); (colliding_A, 0)] ∧
                     hashstructure.Hash call.1 hashstructure.FormatV2 = inl k.
Proof.
  apply (setCounter_Set_counterMap_keys hashstructure.Hash
           [(status_ok, 10); (status_ok, 12); (colliding_A, 0)]).
  repeat constructor; eexists; apply Hash_FormatV2.
Defined.
